(** * Safe Malbolge interpreter: a shallow embedding of
      [src/interpreter/safe_malbolge.py] and the properties of its loader,
      decoder, step function and run loop.

    Conventions of the embedding.
    - A Python [int] is a [Z]; [%] and [//] with a positive right operand are
      [Z.modulo] and [Z.div] (both round towards minus infinity, as Python
      does).
    - The program text is the list of the code points of its characters
      ([ord] of each character), so any Unicode text is representable.
    - The interpreter object is mutated in place by [load], [step] and [run];
      here every method takes the state and returns the state it leaves
      behind next to its result.
    - The error messages, which the source builds with f-strings, are kept
      as structured values: one constructor per message, its arguments the
      values interpolated into the text. *)

From Stdlib Require Import ZArith Lia Bool List String Ascii.
From stdpp Require Import base list.
Import ListNotations.

Local Open Scope Z_scope.

(** ** Result type *)

Inductive Result (T E : Type) : Type :=
| Ok (value : T)
| Err (error : E).

Arguments Ok {T E} value.
Arguments Err {T E} error.

Definition is_ok {T E} (r : Result T E) : bool :=
  match r with Ok _ => true | Err _ => false end.

Definition is_err {T E} (r : Result T E) : bool :=
  match r with Ok _ => false | Err _ => true end.

Definition unwrap_or {T E} (r : Result T E) (default : T) : T :=
  match r with Ok v => v | Err _ => default end.

(** ** Ternary arithmetic *)

Inductive Trit : Type := T0 | T1 | T2.

Definition Trit_value (t : Trit) : Z :=
  match t with T0 => 0 | T1 => 1 | T2 => 2 end.

(** [Trit(n)], the enum looked up by value.  The only call site passes
    [n % 3], which is 0, 1 or 2. *)
Definition Trit_of (n : Z) : Trit :=
  match n with 0 => T0 | 1 => T1 | _ => T2 end.

Definition MAX_VALUE : Z := 59048.

Record Tryte : Type := { value : Z }.

(** [Tryte(n)]: the dataclass constructor followed by [__post_init__], which
    reduces the stored value modulo [MAX_VALUE + 1]. *)
Definition mkTryte (n : Z) : Tryte := {| value := n mod (MAX_VALUE + 1) |}.

Definition from_int (n : Z) : Tryte := mkTryte (n mod (MAX_VALUE + 1)).

(** The body of the loop of [to_trits], run [k] times from [n]. *)
Fixpoint to_trits_loop (k : nat) (n : Z) : list Trit :=
  match k with
  | O => []
  | S k' => Trit_of (n mod 3) :: to_trits_loop k' (n / 3)
  end.

Definition to_trits (t : Tryte) : list Trit := to_trits_loop 10 (value t).

(** [sum(t.value * 3 ** i for i, t in enumerate(trits))], counting from [i]. *)
Fixpoint sum_enumerate (i : Z) (trits : list Trit) : Z :=
  match trits with
  | [] => 0
  | t :: rest => Trit_value t * 3 ^ i + sum_enumerate (i + 1) rest
  end.

Definition from_trits (trits : list Trit) : Tryte :=
  mkTryte (sum_enumerate 0 (take 10 trits)).

Definition Tryte_add (a b : Tryte) : Tryte :=
  mkTryte ((value a + value b) mod (MAX_VALUE + 1)).

(** A Tryte as Python can hold it: the value is a residue modulo 3^10. *)
Definition Tryte_wf (t : Tryte) : Prop := 0 <= value t <= MAX_VALUE.

(** ** The crazy operation *)

Definition CRAZY_TABLE : list (list Trit) :=
  [ [T1; T0; T0];
    [T1; T0; T2];
    [T2; T2; T1] ].

Definition crazy_trit (a b : Trit) : Trit :=
  nth (Z.to_nat (Trit_value b))
      (nth (Z.to_nat (Trit_value a)) CRAZY_TABLE [])
      T0.

Definition crazy (a b : Tryte) : Tryte :=
  let a_trits := to_trits a in
  let b_trits := to_trits b in
  let result_trits := zip_with crazy_trit a_trits b_trits in
  from_trits result_trits.

(** ** Rotation *)

(** [trits[-1]] is [List.last] and [trits[:-1]] is [removelast]; the list is
    the ten trits of [to_trits], never empty. *)
Definition rotate_right (t : Tryte) : Tryte :=
  let trits := to_trits t in
  let rotated := [List.last trits T0] ++ removelast trits in
  from_trits rotated.

(** ** Instruction decryption *)

Inductive DecodeError : Type :=
| InvalidCodePoint (code : Z).

Definition instructions : string := "ji*p</vo"%string.

Definition decrypt_instruction (code position : Z) : Result string DecodeError :=
  if (code <? 33) || (code >? 126) then Err (InvalidCodePoint code)
  else
    let decrypted := (code - 33 + position) mod 94 in
    let len := Z.of_nat (String.length instructions) in
    if decrypted <? len then
      Ok (substring (Z.to_nat (decrypted mod len)) 1 instructions)
    else Ok "nop"%string.

(** ** Bounds-checked memory *)

Inductive MemError : Type :=
| ReadOutOfBounds (addr : Z)
| WriteOutOfBounds (addr : Z).

(** [SafeMemory] has the single attribute [_mem], a Python list of Trytes;
    the object is identified with that list. *)
Abbreviation SafeMemory := (list Tryte).

Definition SIZE : Z := 59049.

(** [[Tryte(0)] * SIZE] *)
Definition SafeMemory_init : SafeMemory := replicate (Z.to_nat SIZE) (mkTryte 0).

(** [_mem[i]] for an index the caller has brought into [0, SIZE).  The list
    keeps its [SIZE] cells for ever (see [mem_wf]), so the lookup always
    finds a cell. *)
Definition getitem (m : SafeMemory) (i : Z) : Tryte :=
  default (mkTryte 0) (m !! Z.to_nat i).

(** [_mem[i] = v], same remark. *)
Definition setitem (m : SafeMemory) (i : Z) (v : Tryte) : SafeMemory :=
  <[Z.to_nat i := v]> m.

Definition read (m : SafeMemory) (addr : Z) : Result Tryte MemError :=
  if (0 <=? addr) && (addr <? SIZE) then Ok (getitem m addr)
  else Err (ReadOutOfBounds addr).

Definition write (m : SafeMemory) (addr : Z) (v : Tryte)
  : Result unit MemError * SafeMemory :=
  if (0 <=? addr) && (addr <? SIZE) then (Ok tt, setitem m addr v)
  else (Err (WriteOutOfBounds addr), m).

Definition read_unsafe (m : SafeMemory) (addr : Z) : Tryte :=
  getitem m (addr mod SIZE).

Definition write_unsafe (m : SafeMemory) (addr : Z) (v : Tryte) : SafeMemory :=
  setitem m (addr mod SIZE) v.

(** ** Machine state *)

Record VMState : Type := {
  a : Tryte;
  c : Tryte;
  d : Tryte;
  memory : SafeMemory;
  output : list ascii;
  halted : bool;
  cycles : Z
}.

Definition set_a (s : VMState) (v : Tryte) : VMState :=
  {| a := v; c := c s; d := d s; memory := memory s;
     output := output s; halted := halted s; cycles := cycles s |}.

Definition set_c (s : VMState) (v : Tryte) : VMState :=
  {| a := a s; c := v; d := d s; memory := memory s;
     output := output s; halted := halted s; cycles := cycles s |}.

Definition set_d (s : VMState) (v : Tryte) : VMState :=
  {| a := a s; c := c s; d := v; memory := memory s;
     output := output s; halted := halted s; cycles := cycles s |}.

Definition set_memory (s : VMState) (m : SafeMemory) : VMState :=
  {| a := a s; c := c s; d := d s; memory := m;
     output := output s; halted := halted s; cycles := cycles s |}.

Definition set_output (s : VMState) (o : list ascii) : VMState :=
  {| a := a s; c := c s; d := d s; memory := memory s;
     output := o; halted := halted s; cycles := cycles s |}.

Definition set_halted (s : VMState) (h : bool) : VMState :=
  {| a := a s; c := c s; d := d s; memory := memory s;
     output := output s; halted := h; cycles := cycles s |}.

Definition set_cycles (s : VMState) (n : Z) : VMState :=
  {| a := a s; c := c s; d := d s; memory := memory s;
     output := output s; halted := halted s; cycles := n |}.

(** [SafeMalbolge.__init__] (and [SafeMalbolge.new]). *)
Definition new : VMState :=
  {| a := mkTryte 0; c := mkTryte 0; d := mkTryte 0;
     memory := SafeMemory_init; output := [];
     halted := false; cycles := 0 |}.

(** ** load *)

Inductive LoadError : Type :=
| ProgramTooLarge (len : Z)
| InvalidCharacter (i : Z) (char : Z).

(** [str.isspace] on one character, by code point: the characters CPython
    classes as whitespace (bidirectional type WS, B or S, or category Zs). *)
Definition isspace (ch : Z) : bool :=
  ((9 <=? ch) && (ch <=? 13)) || ((28 <=? ch) && (ch <=? 32))
  || (ch =? 133) || (ch =? 160) || (ch =? 5760)
  || ((8192 <=? ch) && (ch <=? 8202))
  || (ch =? 8232) || (ch =? 8233) || (ch =? 8239) || (ch =? 8287)
  || (ch =? 12288).

(** The first loop of [load], from index [i] on: validate a character, then
    store it; return at the first character out of range. *)
Fixpoint load_chars (i : Z) (code : list Z) (m : SafeMemory)
  : Result unit LoadError * SafeMemory :=
  match code with
  | [] => (Ok tt, m)
  | char :: rest =>
      let code_point := char in
      if (code_point <? 33) || (code_point >? 126)
      then (Err (InvalidCharacter i char), m)
      else load_chars (i + 1) rest (write_unsafe m i (mkTryte code_point))
  end.

(** The second loop of [load]: [n] iterations from index [i]. *)
Fixpoint fill_loop (n : nat) (i : Z) (m : SafeMemory) : SafeMemory :=
  match n with
  | O => m
  | S n' =>
      let prev1 := read_unsafe m (i - 1) in
      let prev2 := read_unsafe m (i - 2) in
      fill_loop n' (i + 1) (write_unsafe m i (crazy prev1 prev2))
  end.

Definition load (program : list Z) (s : VMState)
  : Result unit LoadError * VMState :=
  let code := List.filter (fun ch => negb (isspace ch)) program in
  let len := Z.of_nat (length code) in
  if len >? SIZE then (Err (ProgramTooLarge len), s)
  else
    match load_chars 0 code (memory s) with
    | (Err e, m) => (Err e, set_memory s m)
    | (Ok _, m) =>
        (Ok tt, set_memory s (fill_loop (Z.to_nat (SIZE - len)) len m))
    end.

(** ** step *)

Inductive StepError : Type :=
| FailedToFetch (e : MemError)
| FailedToDecrypt (e : DecodeError).

(** The tail of [step]: advance both pointers and count the cycle. *)
Definition increment (s : VMState) : Result bool StepError * VMState :=
  (Ok true,
   {| a := a s;
      c := Tryte_add (c s) (mkTryte 1);
      d := Tryte_add (d s) (mkTryte 1);
      memory := memory s; output := output s; halted := halted s;
      cycles := cycles s + 1 |}).

(** [chr(n)] for [n] below 256. *)
Definition chr (n : Z) : ascii := ascii_of_N (Z.to_N n).

Definition step (s : VMState) : Result bool StepError * VMState :=
  if halted s then (Ok false, s)
  else
    let c_val := value (c s) in
    match read (memory s) c_val with
    | Err e => (Err (FailedToFetch e), s)
    | Ok fetched =>
        let instr := value fetched in
        match decrypt_instruction instr c_val with
        | Err e => (Err (FailedToDecrypt e), s)
        | Ok op =>
            let d_val := value (d s) in
            if String.eqb op "j" then
              match read (memory s) d_val with
              | Ok v => increment (set_d s v)
              | Err _ => increment s
              end
            else if String.eqb op "i" then
              match read (memory s) d_val with
              | Ok v => (Ok true, set_c s v)
              | Err _ => increment s
              end
            else if String.eqb op "*" then
              match read (memory s) d_val with
              | Ok v =>
                  let rotated := rotate_right v in
                  increment
                    (set_a (set_memory s (write_unsafe (memory s) d_val rotated))
                           rotated)
              | Err _ => increment s
              end
            else if String.eqb op "p" then
              match read (memory s) d_val with
              | Ok v =>
                  let result := crazy v (a s) in
                  increment
                    (set_a (set_memory s (write_unsafe (memory s) d_val result))
                           result)
              | Err _ => increment s
              end
            else if String.eqb op "<" then
              let char_code := value (a s) mod 256 in
              increment (set_output s (output s ++ [chr char_code]))
            else if String.eqb op "/" then increment s
            else if String.eqb op "v" then (Ok false, set_halted s true)
            else if String.eqb op "o" then increment s
            else increment s
        end
    end.

(** ** run *)

Inductive RunError : Type :=
| ExecutionError (cycle : Z) (e : StepError)
| ExecutionLimitExceeded (max_cycles : Z).

(** The code after the [while] loop of [run]. *)
Definition run_exit (s : VMState) (max_cycles : Z)
  : Result string RunError * VMState :=
  if cycles s >=? max_cycles then (Err (ExecutionLimitExceeded max_cycles), s)
  else (Ok (string_of_list_ascii (output s)), s).

(** [run]: the [while] loop need not terminate, so the model counts its
    iterations down from [gas] and answers [None] when [gas] iterations have
    not brought the loop to its exit.  [gas] is a device of the model; the
    argument of the source is [max_cycles]. *)
Fixpoint run (gas : nat) (max_cycles : Z) (s : VMState)
  : option (Result string RunError * VMState) :=
  match gas with
  | O => None
  | S gas' =>
      if cycles s <? max_cycles then
        match step s with
        | (Err e, s') => Some (Err (ExecutionError (cycles s') e), s')
        | (Ok true, s') => run gas' max_cycles s'
        | (Ok false, s') => Some (run_exit s' max_cycles)
        end
      else Some (run_exit s max_cycles)
  end.

Definition get_output (s : VMState) : string :=
  string_of_list_ascii (output s).

(** * The compiler, [src/compiler/compiler.py]

    The IR instructions carry a tuple of arguments, of which the compiler
    reads [args[0]].  A tuple is a list of Python values; the embedding has
    the ints and the strings (a string is the list of its code points), and
    other Python values are outside it.  A function that can raise returns
    [None] when it does ([IndexError] on an empty tuple, [TypeError] from
    [ord], from [join] or from string formatting). *)

Module Compiler.

Inductive OpCode : Type := CONST | ADD | CRAZY | ROTATE | OUTPUT | HALT.

Inductive PyVal : Type :=
| PyInt (n : Z)
| PyStr (s : list Z).

Record Instruction : Type := { op : OpCode; args : list PyVal }.

Record Program : Type := { instructions : list Instruction }.

Record MalbolgeCodeGen : Type := { code : list Z; position : Z }.

(** [MalbolgeCodeGen.__init__] *)
Definition init : MalbolgeCodeGen := {| code := []; position := 0 |}.

Definition emit_raw (self : MalbolgeCodeGen) (char_code : Z) : MalbolgeCodeGen :=
  {| code := code self ++ [char_code]; position := position self + 1 |}.

(** The dict literal of [encrypt_instruction], in its order. *)
Definition instr_map : list (string * Z) :=
  [("j", 0); ("i", 1); ("*", 2); ("p", 3);
   ("<", 4); ("/", 5); ("v", 6); ("o", 7)]%string.

(** [m[k]] when [k in m]. *)
Fixpoint dict_get (m : list (string * Z)) (k : string) : option Z :=
  match m with
  | [] => None
  | (k', v) :: rest => if String.eqb k k' then Some v else dict_get rest k
  end.

Definition encrypt_instruction (instr : string) (pos : Z) : Z :=
  let instr_idx :=
    match dict_get instr_map instr with
    | None => 7
    | Some idx => idx
    end in
  (instr_idx - pos) mod 94 + 33.

(** Python's [ord]: the code point of a string of length 1; it raises
    [TypeError] on a string of another length and on an int. *)
Definition ord (char : PyVal) : option Z :=
  match char with
  | PyStr [cp] => Some cp
  | _ => None
  end.

(** [self.code.extend(l)] *)
Definition extend (self : MalbolgeCodeGen) (l : list Z) : MalbolgeCodeGen :=
  {| code := code self ++ l; position := position self |}.

Section StringFormatting.

(** [s % n] for a string [s] and an int [n]: Python's printf-style
    formatting, a builtin of the language.  It gives the formatted string,
    or [None] when it raises. *)
Variable str_mod : list Z -> Z -> option (list Z).

(** [compile_const] computes a target Tryte and returns no code.  On an int
    [value % 59049] is arithmetic and [Tryte] reduces it.  On a string
    [value % 59049] is string formatting, and [Tryte.__post_init__] formats
    the result once more with [% (MAX_VALUE + 1)]; either can raise. *)
Definition compile_const (value : PyVal) : option (list Z) :=
  let result := [] in
  match value with
  | PyInt n =>
      let target := mkTryte (n mod 59049) in
      Some result
  | PyStr s =>
      match str_mod s 59049 with
      | None => None
      | Some formatted =>
          match str_mod formatted (MAX_VALUE + 1) with
          | None => None
          | Some _ => Some result
          end
      end
  end.

Definition compile_output_char (self : MalbolgeCodeGen) (char : PyVal)
  : option (list Z) :=
  let result := [] in
  match ord char with
  | None => None
  | Some char_code =>
      let pos := Z.of_nat (length (code self) + length result) in
      Some (result ++ [encrypt_instruction "<" pos])
  end.

Definition compile_halt (self : MalbolgeCodeGen) : list Z :=
  let pos := Z.of_nat (length (code self)) in
  [encrypt_instruction "v" pos].

(** The loop of [compile] over the instructions; [None] when [args[0]],
    [compile_const] or [compile_output_char] raises. *)
Fixpoint compile_loop (instrs : list Instruction) (self : MalbolgeCodeGen)
  : option MalbolgeCodeGen :=
  match instrs with
  | [] => Some self
  | instr :: rest =>
      match op instr with
      | CONST =>
          match args instr !! 0%nat with
          | None => None
          | Some v =>
              match compile_const v with
              | None => None
              | Some l => compile_loop rest (extend self l)
              end
          end
      | OUTPUT =>
          match args instr !! 0%nat with
          | None => None
          | Some ch =>
              match compile_output_char self ch with
              | None => None
              | Some l => compile_loop rest (extend self l)
              end
          end
      | HALT => compile_loop rest (extend self (compile_halt self))
      | _ => compile_loop rest self
      end
  end.

Inductive CompileError : Type :=
| CodeGenerationFailed
| UnknownOperation (name : string).

(** [compile]: the text is returned as the list of its code points, as
    [load] takes it.  [chr] cannot fail on the code points the filter lets
    through, so the [except] branch returns nothing here. *)
Definition compile (program : Program) : option (Result (list Z) CompileError) :=
  match compile_loop (instructions program) init with
  | None => None
  | Some self =>
      Some (Ok (List.filter (fun c => (33 <=? c) && (c <=? 126)) (code self)))
  end.

End StringFormatting.

(** The loop of [EquivalenceProver._simulate_ir]: the items appended to
    [output]; it stops at the first HALT. *)
Fixpoint simulate_loop (instrs : list Instruction) (output : list PyVal)
  : option (list PyVal) :=
  match instrs with
  | [] => Some output
  | instr :: rest =>
      match op instr with
      | OUTPUT =>
          match args instr !! 0%nat with
          | None => None
          | Some ch => simulate_loop rest (output ++ [ch])
          end
      | HALT => Some output
      | _ => simulate_loop rest output
      end
  end.

(** [''.join(output)]: the strings concatenated; [TypeError] on an int. *)
Fixpoint join (output : list PyVal) : option (list Z) :=
  match output with
  | [] => Some []
  | PyStr s :: rest =>
      match join rest with
      | None => None
      | Some joined => Some (s ++ joined)
      end
  | PyInt _ :: _ => None
  end.

Definition _simulate_ir (safe_program : Program) : option (list Z) :=
  match simulate_loop (instructions safe_program) [] with
  | None => None
  | Some output => join output
  end.

Inductive ProveError : Type :=
| FailedToLoad (e : LoadError)
| ExecutionFailed (e : RunError)
| OutputMismatch (ir malbolge : list Z).

(** What a call comes to: a returned value, a raised exception, or a run
    loop that [gas] iterations have not finished. *)
Inductive Outcome (A : Type) : Type :=
| Returned (r : A)
| Raised
| Unfinished.

Arguments Returned {A} r.
Arguments Raised {A}.
Arguments Unfinished {A}.

(** The code points of the string [run] returns. *)
Definition code_points (out : string) : list Z :=
  List.map (fun ch => Z.of_N (N_of_ascii ch)) (list_ascii_of_string out).

Definition list_Z_eqb (x y : list Z) : bool :=
  if decide (x = y) then true else false.

Definition prove_output_equivalence
    (gas : nat) (safe_program : Program) (malbolge_code : list Z)
  : Outcome (Result bool ProveError) :=
  match _simulate_ir safe_program with
  | None => Raised
  | Some safe_output =>
      let vm := new in
      match load malbolge_code vm with
      | (Err e, _) => Returned (Err (FailedToLoad e))
      | (Ok _, vm1) =>
          match run gas 100000 vm1 with
          | None => Unfinished
          | Some (Err e, _) => Returned (Err (ExecutionFailed e))
          | Some (Ok malbolge_output, _) =>
              if list_Z_eqb safe_output (code_points malbolge_output)
              then Returned (Ok true)
              else Returned (Err (OutputMismatch safe_output
                                    (code_points malbolge_output)))
          end
      end
  end.

(** An operation tuple of [compile_safe_to_malbolge]: its name [op[0]] and
    the items after it. *)
Record Operation : Type := { name : string; items : list PyVal }.

(** The loop of [compile_safe_to_malbolge]: the instructions built so far,
    an error at the first unknown name, [None] when [op[1]] raises. *)
Fixpoint build_instructions (operations : list Operation) (acc : list Instruction)
  : option (Result (list Instruction) CompileError) :=
  match operations with
  | [] => Some (Ok acc)
  | o :: rest =>
      if String.eqb (name o) "const" then
        match items o !! 0%nat with
        | None => None
        | Some v => build_instructions rest (acc ++ [{| op := CONST; args := [v] |}])
        end
      else if String.eqb (name o) "add" then
        build_instructions rest (acc ++ [{| op := ADD; args := [] |}])
      else if String.eqb (name o) "crazy" then
        build_instructions rest (acc ++ [{| op := CRAZY; args := [] |}])
      else if String.eqb (name o) "rotate" then
        build_instructions rest (acc ++ [{| op := ROTATE; args := [] |}])
      else if String.eqb (name o) "output" then
        match items o !! 0%nat with
        | None => None
        | Some v => build_instructions rest (acc ++ [{| op := OUTPUT; args := [v] |}])
        end
      else if String.eqb (name o) "halt" then
        build_instructions rest (acc ++ [{| op := HALT; args := [] |}])
      else Some (Err (UnknownOperation (name o)))
  end.

Definition compile_safe_to_malbolge
    (str_mod : list Z -> Z -> option (list Z)) (operations : list Operation)
  : option (Result (list Z) CompileError) :=
  match build_instructions operations [] with
  | None => None
  | Some (Err e) => Some (Err e)
  | Some (Ok instrs) => compile str_mod {| instructions := instrs |}
  end.

End Compiler.

(** * Definitions for the statements *)

(** One rotation on the list of trits. *)
Definition rotate_trits (l : list Trit) : list Trit :=
  [List.last l T0] ++ removelast l.

(** The opcodes by the names the specification gives them, in the order of
    the decoder's table, and the symbol [decrypt_instruction] returns for
    each (the symbols [step] matches on). *)
Inductive Opcode : Type :=
| JumpViaData | JumpCodeViaData | Rotate | CrazyOp
| Output | Input | Halt | NoOp.

Definition opcode_table : list Opcode :=
  [JumpViaData; JumpCodeViaData; Rotate; CrazyOp; Output; Input; Halt; NoOp].

Definition opcode_symbol (o : Opcode) : string :=
  match o with
  | JumpViaData => "j" | JumpCodeViaData => "i" | Rotate => "*"
  | CrazyOp => "p" | Output => "<" | Input => "/" | Halt => "v"
  | NoOp => "o"
  end%string.

(** ** Well-formed states *)

Definition mem_wf (m : SafeMemory) : Prop :=
  length m = Z.to_nat SIZE /\ Forall Tryte_wf m.

(** The states Python can hold: every Tryte is reduced, the memory list has
    its [SIZE] cells, the cycle counter has only been counted up from 0. *)
Definition state_wf (s : VMState) : Prop :=
  Tryte_wf (a s) /\ Tryte_wf (c s) /\ Tryte_wf (d s)
  /\ mem_wf (memory s) /\ 0 <= cycles s.

(** The program text with its whitespace filtered out, as [load] computes
    it first. *)
Definition strip (program : list Z) : list Z :=
  List.filter (fun ch => negb (isspace ch)) program.

Definition valid_char (ch : Z) : Prop := 33 <= ch <= 126.

(** The cells the second loop produces, given the two cells before the
    first of them: each is [crazy] of its two predecessors. *)
Fixpoint crazy_fill (n : nat) (prev1 prev2 : Tryte) : list Tryte :=
  match n with
  | O => []
  | S n' => let x := crazy prev1 prev2 in x :: crazy_fill n' x prev1
  end.

(** The memory while [load] runs a valid program, between its two loops. *)
Definition loaded_text (code : list Z) (m : SafeMemory) : SafeMemory :=
  (mkTryte <$> code) ++ drop (length code) m.

(** The memory a successful [load] of the stripped text [code] leaves when
    it starts from memory [m]: the code points, then the cells of the second
    loop, seeded by the two cells it reads before the first of them. *)
Definition loaded_memory (code : list Z) (m : SafeMemory) : SafeMemory :=
  let len := Z.of_nat (length code) in
  let mid := loaded_text code m in
  (mkTryte <$> code)
    ++ crazy_fill (Z.to_nat (SIZE - len))
         (read_unsafe mid (len - 1)) (read_unsafe mid (len - 2)).

(** What the second loop of [load] finds at address [k] when it reads a cell
    before the one it is filling: the cell as [load] leaves it ([final]) or,
    for a negative [k], which wraps to the top of memory, the cell as it was
    before the call ([m]). *)
Definition cell_before (final m : SafeMemory) (k : Z) : Tryte :=
  if 0 <=? k then read_unsafe final k else read_unsafe m k.

(** The states a program can bring the interpreter to: a fresh interpreter,
    and whatever [load] and [step] leave behind ([run] is a sequence of
    [step]s). *)
Inductive reachable : VMState -> Prop :=
| reachable_new : reachable new
| reachable_load (program : list Z) (s : VMState) :
    reachable s -> reachable (snd (load program s))
| reachable_step (s : VMState) :
    reachable s -> reachable (snd (step s)).

(** The cell [step] fetches. *)
Definition fetched_cell (s : VMState) : Tryte :=
  getitem (memory s) (value (c s)).

(** The one-character program "'" (code point 39), which decodes to the
    halt opcode at address 0. *)
Definition halt_program : list Z := [39].

(** The 35-character program made of a double quote (code point 34), 33
    exclamation marks (33) and a circumflex (94): cell 0 holds 34, which
    decodes to [i] at address 0, and cell 34 holds 94, which decodes to [i]
    at address 34. *)
Definition jump_loop_program : list Z := [34] ++ replicate 33 33 ++ [94].


(** ** Definitions for the statements about the compiler *)

(** The opcode symbol an IR instruction makes [compile] emit, if any. *)
Definition emitted_symbol (instr : Compiler.Instruction) : option string :=
  match Compiler.op instr with
  | Compiler.OUTPUT => Some "<"%string
  | Compiler.HALT => Some "v"%string
  | _ => None
  end.

Definition emitted (instrs : list Compiler.Instruction) : list string :=
  omap emitted_symbol instrs.

(** The symbols [syms] encrypted for the consecutive positions [n], [n+1],
    ... *)
Definition encode_from (n : nat) (syms : list string) : list Z :=
  imap (fun k sym => Compiler.encrypt_instruction sym (Z.of_nat (n + k))) syms.

(** The character of an OUTPUT instruction: the code point of its first
    argument when that is a string of length 1. *)
Definition output_char (instr : Compiler.Instruction) : option Z :=
  match Compiler.op instr with
  | Compiler.OUTPUT =>
      match Compiler.args instr !! 0%nat with
      | Some (Compiler.PyStr [cp]) => Some cp
      | _ => None
      end
  | _ => None
  end.

Definition output_chars (instrs : list Compiler.Instruction) : list Z :=
  omap output_char instrs.

(** The argument of a CONST on which [compile_const] raises: a string that
    one of the two formattings rejects. *)
Definition const_argument_raises
    (str_mod : list Z -> Z -> option (list Z)) (v : Compiler.PyVal) : Prop :=
  exists s : list Z,
    v = Compiler.PyStr s
    /\ (str_mod s 59049 = None
        \/ exists formatted : list Z,
             str_mod s 59049 = Some formatted
             /\ str_mod formatted 59049 = None).

(** The instructions on which [compile] raises: a CONST or an OUTPUT with
    an empty tuple, a CONST whose argument makes [compile_const] raise, an
    OUTPUT whose argument is not a string of length 1. *)
Definition raises_on_argument
    (str_mod : list Z -> Z -> option (list Z)) (instr : Compiler.Instruction)
  : Prop :=
  match Compiler.op instr with
  | Compiler.CONST =>
      Compiler.args instr = []
      \/ exists v : Compiler.PyVal,
           Compiler.args instr !! 0%nat = Some v
           /\ const_argument_raises str_mod v
  | Compiler.OUTPUT => output_char instr = None
  | _ => False
  end.

(** The operation names [compile_safe_to_malbolge] knows. *)
Definition known_names : list string :=
  ["const"; "add"; "crazy"; "rotate"; "output"; "halt"]%string.

(** The machine while it runs [k] output instructions from address 0 with a
    zero accumulator, on memory [m]. *)
Definition printing_state (m : SafeMemory) (k : nat) : VMState :=
  {| a := mkTryte 0; c := mkTryte (Z.of_nat k); d := mkTryte (Z.of_nat k);
     memory := m; output := replicate k (chr 0);
     halted := false; cycles := Z.of_nat k |}.

(** The IR program "output H, halt" of the compiler's own demonstration,
    shortened to one character, and the same with another character. *)
Definition sample_program : Compiler.Program :=
  {| Compiler.instructions :=
       [ {| Compiler.op := Compiler.OUTPUT;
            Compiler.args := [Compiler.PyStr [72]] |};
         {| Compiler.op := Compiler.HALT; Compiler.args := [] |} ] |}.

Definition sample_program' : Compiler.Program :=
  {| Compiler.instructions :=
       [ {| Compiler.op := Compiler.OUTPUT;
            Compiler.args := [Compiler.PyStr [105]] |};
         {| Compiler.op := Compiler.HALT; Compiler.args := [] |} ] |}.

(** A string formatting that always raises, for the examples (none of them
    has a CONST with a string). *)
Definition no_formatting (s : list Z) (n : Z) : option (list Z) := None.

(** An operation the loop of [compile_safe_to_malbolge] takes: a known
    name, and an item after it when the name is "const" or "output". *)
Definition well_formed_operation (o : Compiler.Operation) : Prop :=
  Compiler.name o ∈ known_names
  /\ (Compiler.name o = "const"%string \/ Compiler.name o = "output"%string ->
      Compiler.items o <> []).

(** An operation that compiles: well formed, the item of a "const" one on
    which [compile_const] does not raise, the item of an "output" a string
    of length 1. *)
Definition compilable_operation
    (str_mod : list Z -> Z -> option (list Z)) (o : Compiler.Operation) : Prop :=
  well_formed_operation o
  /\ (Compiler.name o = "const"%string ->
      forall v : Compiler.PyVal,
        Compiler.items o !! 0%nat = Some v -> ~ const_argument_raises str_mod v)
  /\ (Compiler.name o = "output"%string ->
      exists cp : Z, Compiler.items o !! 0%nat = Some (Compiler.PyStr [cp])).

(** * Properties *)

(** ** Trytes and their trits *)

Lemma MAX_VALUE_pow : MAX_VALUE + 1 = 3 ^ 10.
Proof. reflexivity. Qed.

Lemma mkTryte_wf (n : Z) : Tryte_wf (mkTryte n).
Proof.
  unfold Tryte_wf, mkTryte; cbn [value].
  pose proof (Z.mod_pos_bound n (MAX_VALUE + 1)) as H.
  unfold MAX_VALUE in *; lia.
Qed.

Lemma mkTryte_value (t : Tryte) : Tryte_wf t -> mkTryte (value t) = t.
Proof.
  destruct t as [v]; unfold Tryte_wf, mkTryte; cbn [value]; intros H.
  f_equal. apply Z.mod_small. unfold MAX_VALUE in *; lia.
Qed.

Lemma mkTryte_small (n : Z) : 0 <= n <= MAX_VALUE -> value (mkTryte n) = n.
Proof.
  unfold mkTryte; cbn [value]; intros H. apply Z.mod_small; lia.
Qed.

Lemma Tryte_add_wf (x y : Tryte) : Tryte_wf (Tryte_add x y).
Proof. apply mkTryte_wf. Qed.

Lemma Trit_value_bound (t : Trit) : 0 <= Trit_value t < 3.
Proof. destruct t; simpl; lia. Qed.

Lemma Trit_of_value (t : Trit) : Trit_of (Trit_value t) = t.
Proof. by destruct t. Qed.

Lemma to_trits_loop_length (k : nat) (n : Z) :
  length (to_trits_loop k n) = k.
Proof. revert n; induction k as [|k IH]; intros n; simpl; [done | by rewrite IH]. Qed.

Lemma to_trits_length (t : Tryte) : length (to_trits t) = 10%nat.
Proof. apply to_trits_loop_length. Qed.

(** The sum of [from_trits] is a positional numeral: shifting the start
    index multiplies it by a power of three. *)
Lemma sum_enumerate_shift (i : Z) (l : list Trit) :
  0 <= i -> sum_enumerate (i + 1) l = 3 * sum_enumerate i l.
Proof.
  revert i; induction l as [|t l IH]; intros i Hi; simpl; [lia|].
  rewrite IH by lia. rewrite Z.pow_add_r by lia. lia.
Qed.

Lemma sum_enumerate_cons (t : Trit) (l : list Trit) :
  sum_enumerate 0 (t :: l) = Trit_value t + 3 * sum_enumerate 0 l.
Proof.
  simpl. rewrite (sum_enumerate_shift 0) by lia. lia.
Qed.

Lemma sum_enumerate_bound (l : list Trit) :
  0 <= sum_enumerate 0 l < 3 ^ Z.of_nat (length l).
Proof.
  induction l as [|t l IH].
  - simpl; lia.
  - rewrite sum_enumerate_cons.
    replace (Z.of_nat (length (t :: l))) with (Z.of_nat (length l) + 1)
      by (simpl; lia).
    rewrite Z.pow_add_r by lia.
    pose proof (Trit_value_bound t). lia.
Qed.

(** Decomposing the sum of a trit list gives the list back. *)
Lemma to_trits_loop_sum (l : list Trit) :
  to_trits_loop (length l) (sum_enumerate 0 l) = l.
Proof.
  induction l as [|t l IH]; [done|].
  rewrite sum_enumerate_cons.
  pose proof (Trit_value_bound t) as Ht.
  cbn [length to_trits_loop].
  replace ((Trit_value t + 3 * sum_enumerate 0 l) mod 3) with (Trit_value t).
  2:{ apply Z.mod_unique with (q := sum_enumerate 0 l); lia. }
  replace ((Trit_value t + 3 * sum_enumerate 0 l) / 3) with (sum_enumerate 0 l).
  2:{ apply Z.div_unique with (r := Trit_value t); lia. }
  by rewrite Trit_of_value, IH.
Qed.

(** Summing the [k] trits of [n] gives [n] back, up to [3^k]. *)
Lemma sum_to_trits_loop (k : nat) (n : Z) :
  0 <= n -> sum_enumerate 0 (to_trits_loop k n) = n mod 3 ^ Z.of_nat k.
Proof.
  revert n; induction k as [|k IH]; intros n Hn.
  - simpl. by rewrite Z.mod_1_r.
  - cbn [to_trits_loop]. rewrite sum_enumerate_cons.
    rewrite IH by (apply Z.div_pos; lia).
    replace (Z.of_nat (S k)) with (1 + Z.of_nat k) by lia.
    rewrite Z.pow_add_r by lia. change (3 ^ 1) with 3.
    assert (H3 : 0 <= n mod 3 < 3) by (apply Z.mod_pos_bound; lia).
    replace (Trit_value (Trit_of (n mod 3))) with (n mod 3).
    2:{ assert (Hc : n mod 3 = 0 \/ n mod 3 = 1 \/ n mod 3 = 2) by lia.
        destruct Hc as [-> | [-> | ->]]; reflexivity. }
    assert (Hp : 0 < 3 ^ Z.of_nat k) by (apply Z.pow_pos_nonneg; lia).
    rewrite (Z.rem_mul_r n 3 (3 ^ Z.of_nat k)) by lia. lia.
Qed.

Lemma from_trits_to_trits (t : Tryte) :
  Tryte_wf t -> from_trits (to_trits t) = t.
Proof.
  intros Hwf. unfold from_trits, to_trits.
  rewrite take_ge by (rewrite to_trits_loop_length; lia).
  unfold Tryte_wf, MAX_VALUE in Hwf.
  rewrite sum_to_trits_loop by lia.
  change (3 ^ Z.of_nat 10) with 59049.
  rewrite Z.mod_small by lia. by apply mkTryte_value.
Qed.

Lemma to_trits_from_trits (l : list Trit) :
  length l = 10%nat -> to_trits (from_trits l) = l.
Proof.
  intros Hl. unfold from_trits, to_trits.
  rewrite take_ge by lia.
  pose proof (sum_enumerate_bound l) as Hb. rewrite Hl in Hb.
  change (3 ^ Z.of_nat 10) with 59049 in Hb.
  rewrite mkTryte_small by (unfold MAX_VALUE; lia).
  rewrite <- Hl at 1. apply to_trits_loop_sum.
Qed.

Lemma from_trits_wf (l : list Trit) : Tryte_wf (from_trits l).
Proof. apply mkTryte_wf. Qed.

Lemma crazy_wf (x y : Tryte) : Tryte_wf (crazy x y).
Proof. apply from_trits_wf. Qed.

Lemma rotate_right_wf (t : Tryte) : Tryte_wf (rotate_right t).
Proof. apply from_trits_wf. Qed.

(** ** Rotation *)

Lemma rotate_trits_length (l : list Trit) :
  length l = 10%nat -> length (rotate_trits l) = 10%nat.
Proof.
  do 11 (destruct l as [|? l]; try discriminate). done.
Qed.

Lemma rotate_trits_cycle (l : list Trit) :
  length l = 10%nat -> Nat.iter 10 rotate_trits l = l.
Proof.
  do 11 (destruct l as [|? l]; try discriminate). done.
Qed.

Lemma rotate_right_from_trits (l : list Trit) :
  length l = 10%nat -> rotate_right (from_trits l) = from_trits (rotate_trits l).
Proof.
  intros Hl. unfold rotate_right. by rewrite to_trits_from_trits.
Qed.

Lemma iter_rotate_right_from_trits (n : nat) (l : list Trit) :
  length l = 10%nat ->
  Nat.iter n rotate_right (from_trits l) = from_trits (Nat.iter n rotate_trits l)
  /\ length (Nat.iter n rotate_trits l) = 10%nat.
Proof.
  intros Hl. induction n as [|n [IH1 IH2]]; [done|].
  rewrite !Nat.iter_succ, IH1. split.
  - by apply rotate_right_from_trits.
  - by apply rotate_trits_length.
Qed.

(** C8: for every Tryte, one application of [rotate_right] moves the last
    (most significant) of the ten trits to the front (least significant
    place) and shifts the other nine up, and ten applications in succession
    give the Tryte back. *)
Theorem rotate_right_ten_times (t : Tryte) :
  Tryte_wf t ->
  to_trits (rotate_right t)
    = List.last (to_trits t) T0 :: removelast (to_trits t)
  /\ Nat.iter 10 rotate_right t = t.
Proof.
  intros Hwf. split.
  - unfold rotate_right. apply to_trits_from_trits.
    apply (rotate_trits_length (to_trits t)), to_trits_length.
  - rewrite <- (from_trits_to_trits t Hwf) at 1.
    destruct (iter_rotate_right_from_trits 10 (to_trits t)) as [-> _].
    { apply to_trits_length. }
    rewrite rotate_trits_cycle by apply to_trits_length.
    by apply from_trits_to_trits.
Qed.

Lemma rotate_right_ten_times_witness :
  Tryte_wf (mkTryte 12345)
  /\ to_trits (rotate_right (mkTryte 12345))
     = List.last (to_trits (mkTryte 12345)) T0
         :: removelast (to_trits (mkTryte 12345))
  /\ Nat.iter 10 rotate_right (mkTryte 12345) = mkTryte 12345.
Proof.
  split; [apply mkTryte_wf|].
  apply (rotate_right_ten_times (mkTryte 12345)). apply mkTryte_wf.
Defined.

(** ** Instruction decoder *)

Lemma decrypt_instruction_invalid (code position : Z) :
  code < 33 \/ 126 < code ->
  decrypt_instruction code position = Err (InvalidCodePoint code).
Proof.
  intros H. unfold decrypt_instruction.
  destruct (code <? 33) eqn:E1; [done|].
  destruct (code >? 126) eqn:E2; [done|]. lia.
Qed.

Lemma code_point_valid (code : Z) :
  33 <= code <= 126 -> (code <? 33) || (code >? 126) = false.
Proof. intros H. apply orb_false_iff. lia. Qed.

Lemma decrypt_instruction_valid (code position : Z) :
  33 <= code <= 126 ->
  exists op, decrypt_instruction code position = Ok op.
Proof.
  intros H. unfold decrypt_instruction.
  rewrite code_point_valid by done. cbv zeta.
  destruct (_ <? _); eauto.
Qed.

(** C5: the decoder fails exactly on a stored value outside [33,126]; on a
    valid one, with [dd = (stored_value - 33 + position) mod 94], it returns
    the symbol of the [dd]-th opcode of the table when [dd < 8] and the
    no-op result ["nop"], not a failure, when [dd >= 8]. *)
Theorem decrypt_instruction_spec (code position : Z) :
  let dd := (code - 33 + position) mod 94 in
  (is_err (decrypt_instruction code position) = true
     <-> code < 33 \/ 126 < code)
  /\ (33 <= code <= 126 -> dd < 8 ->
      exists op, opcode_table !! Z.to_nat dd = Some op
                 /\ decrypt_instruction code position = Ok (opcode_symbol op))
  /\ (33 <= code <= 126 -> 8 <= dd ->
      decrypt_instruction code position = Ok "nop"%string).
Proof.
  intros dd.
  assert (Hdd : 0 <= dd < 94) by (apply Z.mod_pos_bound; lia).
  split; [|split].
  - split.
    + intros He. destruct (Z_lt_dec code 33) as [|H1]; [by left|].
      destruct (Z_lt_dec 126 code) as [|H2]; [by right|].
      destruct (decrypt_instruction_valid code position) as [op Hop]; [lia|].
      rewrite Hop in He. discriminate.
    + intros H. by rewrite decrypt_instruction_invalid.
  - intros Hc Hlt. unfold decrypt_instruction. fold dd.
    rewrite code_point_valid by done. cbv zeta.
    assert (Hcase : dd = 0 \/ dd = 1 \/ dd = 2 \/ dd = 3
                    \/ dd = 4 \/ dd = 5 \/ dd = 6 \/ dd = 7) by lia.
    destruct Hcase as [->|[->|[->|[->|[->|[->|[->| ->]]]]]]];
      eexists; (split; [reflexivity|reflexivity]).
  - intros Hc Hge. unfold decrypt_instruction. fold dd.
    rewrite code_point_valid by done. cbv zeta.
    destruct (dd <? _) eqn:E3; [|done].
    apply Z.ltb_lt in E3. change (Z.of_nat (String.length instructions)) with 8 in E3.
    lia.
Qed.

Lemma decrypt_instruction_spec_witness :
  (33 <= 39 <= 126 /\ (39 - 33 + 0) mod 94 < 8)
  /\ exists op, opcode_table !! Z.to_nat ((39 - 33 + 0) mod 94) = Some op
                /\ decrypt_instruction 39 0 = Ok (opcode_symbol op).
Proof.
  split; [split; [lia | reflexivity]|].
  destruct (decrypt_instruction_spec 39 0) as (_ & H & _).
  apply H; [lia | reflexivity].
Defined.

(** ** Memory *)

Lemma SIZE_nat : Z.of_nat (Z.to_nat SIZE) = SIZE.
Proof. apply Z2Nat.id. unfold SIZE. lia. Qed.

Lemma SafeMemory_init_wf : mem_wf SafeMemory_init.
Proof.
  split.
  - apply length_replicate.
  - apply Forall_replicate, mkTryte_wf.
Qed.

Lemma new_wf : state_wf new.
Proof.
  unfold state_wf, new; cbn [a c d memory cycles].
  repeat split; try apply mkTryte_wf; try apply SafeMemory_init_wf. lia.
Qed.

Lemma getitem_lookup (m : SafeMemory) (k : nat) (t : Tryte) :
  m !! k = Some t -> getitem m (Z.of_nat k) = t.
Proof. unfold getitem. rewrite Nat2Z.id. by intros ->. Qed.

Lemma lookup_getitem (m : SafeMemory) (k : nat) :
  (k < length m)%nat -> m !! k = Some (getitem m (Z.of_nat k)).
Proof.
  intros Hk. destruct (lookup_lt_is_Some_2 m k Hk) as [t Ht].
  by rewrite (getitem_lookup m k t Ht).
Qed.

Lemma getitem_wf (m : SafeMemory) (i : Z) :
  Forall Tryte_wf m -> Tryte_wf (getitem m i).
Proof.
  intros Hm. unfold getitem.
  destruct (m !! Z.to_nat i) as [t|] eqn:E; cbn [default].
  - eapply Forall_lookup_1; eauto.
  - apply mkTryte_wf.
Qed.

Lemma setitem_wf (m : SafeMemory) (i : Z) (v : Tryte) :
  mem_wf m -> Tryte_wf v -> mem_wf (setitem m i v).
Proof.
  intros [Hl Hf] Hv. unfold setitem. split.
  - by rewrite length_insert.
  - by apply Forall_insert.
Qed.

Lemma read_unsafe_wf (m : SafeMemory) (addr : Z) :
  mem_wf m -> Tryte_wf (read_unsafe m addr).
Proof. intros [_ Hf]. by apply getitem_wf. Qed.

Lemma write_unsafe_wf (m : SafeMemory) (addr : Z) (v : Tryte) :
  mem_wf m -> Tryte_wf v -> mem_wf (write_unsafe m addr v).
Proof. apply setitem_wf. Qed.

Lemma read_in_range (m : SafeMemory) (addr : Z) :
  0 <= addr < SIZE -> read m addr = Ok (getitem m addr).
Proof.
  intros H. unfold read.
  destruct (0 <=? addr) eqn:E1; [|lia].
  destruct (addr <? SIZE) eqn:E2; [done|lia].
Qed.

Lemma read_Tryte (m : SafeMemory) (t : Tryte) :
  Tryte_wf t -> read m (value t) = Ok (getitem m (value t)).
Proof.
  intros H. apply read_in_range. unfold Tryte_wf, MAX_VALUE in H.
  unfold SIZE. lia.
Qed.

Lemma write_unsafe_nat (m : SafeMemory) (k : nat) (v : Tryte) :
  (k < Z.to_nat SIZE)%nat -> write_unsafe m (Z.of_nat k) v = <[k := v]> m.
Proof.
  intros Hk. unfold write_unsafe, setitem.
  rewrite Z.mod_small by (pose proof SIZE_nat; lia).
  by rewrite Nat2Z.id.
Qed.

Lemma read_unsafe_nat (m : SafeMemory) (k : nat) (t : Tryte) :
  (k < Z.to_nat SIZE)%nat -> m !! k = Some t -> read_unsafe m (Z.of_nat k) = t.
Proof.
  intros Hk Ht. unfold read_unsafe.
  rewrite Z.mod_small by (pose proof SIZE_nat; lia).
  by apply getitem_lookup.
Qed.

(** ** The two loops of load *)

Lemma insert_take_drop_S (m : SafeMemory) (k : nat) (v : Tryte) :
  (k < length m)%nat -> take (S k) (<[k := v]> m) = take k m ++ [v].
Proof.
  intros Hk. rewrite (take_S_r _ _ v).
  - by rewrite take_insert_ge by lia.
  - by apply list_lookup_insert_eq.
Qed.

(** When every character is valid the first loop stores them all, from
    cell [k] on, and touches nothing else. *)
Lemma load_chars_valid (code : list Z) :
  forall (k : nat) (m : SafeMemory),
    Forall valid_char code ->
    (k + length code <= Z.to_nat SIZE)%nat ->
    length m = Z.to_nat SIZE ->
    load_chars (Z.of_nat k) code m
    = (Ok tt, take k m ++ (mkTryte <$> code) ++ drop (k + length code) m).
Proof.
  induction code as [|ch rest IH]; intros k m Hv Hk Hm.
  - cbn [load_chars fmap list_fmap length app]. rewrite Nat.add_0_r.
    by rewrite take_drop.
  - apply Forall_cons in Hv as [Hch Hrest]. cbn [length] in Hk.
    cbn [load_chars]. rewrite code_point_valid by done.
    rewrite write_unsafe_nat by lia.
    replace (Z.of_nat k + 1) with (Z.of_nat (S k)) by lia.
    rewrite IH; [|done|lia|by rewrite length_insert].
    rewrite insert_take_drop_S by lia.
    rewrite drop_insert_lt by lia.
    rewrite <- app_assoc. cbn [fmap list_fmap length app].
    replace (S k + length rest)%nat with (k + S (length rest))%nat by lia.
    done.
Qed.

(** At the first invalid character the first loop returns, having stored
    the characters before it. *)
Lemma load_chars_invalid (pre : list Z) (ch : Z) (post : list Z) :
  forall (k : nat) (m : SafeMemory),
    Forall valid_char pre ->
    ~ valid_char ch ->
    (k + length pre <= Z.to_nat SIZE)%nat ->
    length m = Z.to_nat SIZE ->
    load_chars (Z.of_nat k) (pre ++ ch :: post) m
    = (Err (InvalidCharacter (Z.of_nat (k + length pre)) ch),
       take k m ++ (mkTryte <$> pre) ++ drop (k + length pre) m).
Proof.
  induction pre as [|x pre IH]; intros k m Hv Hch Hk Hm.
  - cbn [app load_chars fmap list_fmap length]. rewrite Nat.add_0_r.
    rewrite take_drop.
    assert (Hb : (ch <? 33) || (ch >? 126) = true).
    { unfold valid_char in Hch. apply orb_true_iff. lia. }
    by rewrite Hb.
  - apply Forall_cons in Hv as [Hx Hpre]. cbn [length] in Hk.
    cbn [app load_chars]. rewrite code_point_valid by done.
    rewrite write_unsafe_nat by lia.
    replace (Z.of_nat k + 1) with (Z.of_nat (S k)) by lia.
    rewrite IH; [|done|done|lia|by rewrite length_insert].
    rewrite insert_take_drop_S by lia.
    rewrite drop_insert_lt by lia.
    rewrite <- app_assoc. cbn [fmap list_fmap length app].
    replace (S k + length pre)%nat with (k + S (length pre))%nat by lia.
    done.
Qed.

(** A text is valid throughout or has a first invalid character. *)
Lemma valid_or_first_invalid (code : list Z) :
  Forall valid_char code
  \/ exists pre ch post,
       code = pre ++ ch :: post /\ Forall valid_char pre /\ ~ valid_char ch.
Proof.
  induction code as [|x code IH]; [by left|].
  destruct (decide (33 <= x <= 126)) as [Hx|Hx].
  - destruct IH as [IH | (pre & ch & post & -> & Hpre & Hch)].
    + left. by constructor.
    + right. exists (x :: pre), ch, post. repeat split; [|done].
      by constructor.
  - right. exists [], x, code. by repeat split.
Qed.

Lemma crazy_fill_length (n : nat) (p1 p2 : Tryte) :
  length (crazy_fill n p1 p2) = n.
Proof.
  revert p1 p2; induction n as [|n IH]; intros p1 p2; [done|].
  cbn [crazy_fill length]. by rewrite IH.
Qed.

Lemma crazy_fill_wf (n : nat) (p1 p2 : Tryte) :
  Forall Tryte_wf (crazy_fill n p1 p2).
Proof.
  revert p1 p2; induction n as [|n IH]; intros p1 p2; [constructor|].
  cbn [crazy_fill]. constructor; [apply crazy_wf | apply IH].
Qed.

(** The recurrence of [crazy_fill], on the list with its two seeds in
    front. *)
Lemma crazy_fill_rec (n : nat) :
  forall (p1 p2 : Tryte) (k : nat) (x y : Tryte),
    (k < n)%nat ->
    (p2 :: p1 :: crazy_fill n p1 p2) !! k = Some y ->
    (p2 :: p1 :: crazy_fill n p1 p2) !! S k = Some x ->
    (p2 :: p1 :: crazy_fill n p1 p2) !! S (S k) = Some (crazy x y).
Proof.
  induction n as [|n IH]; intros p1 p2 k x y Hk Hy Hx; [lia|].
  destruct k as [|k].
  - cbn in Hy, Hx. by simplify_eq.
  - cbn [crazy_fill] in *. cbn [lookup list_lookup] in Hy, Hx |- *.
    apply (IH (crazy p1 p2) p1 k x y); [lia|done|done].
Qed.

(** The second loop writes [crazy_fill] into cells [k .. k+n-1], seeded by
    the two cells it reads before cell [k] (at wrapped addresses), and
    touches nothing else. *)
Lemma fill_loop_eq (n : nat) :
  forall (k : nat) (m : SafeMemory),
    (k + n <= Z.to_nat SIZE)%nat ->
    length m = Z.to_nat SIZE ->
    fill_loop n (Z.of_nat k) m
    = take k m
      ++ crazy_fill n (read_unsafe m (Z.of_nat k - 1))
                      (read_unsafe m (Z.of_nat k - 2))
      ++ drop (k + n) m.
Proof.
  induction n as [|n IH]; intros k m Hk Hm.
  - cbn [fill_loop crazy_fill app]. rewrite Nat.add_0_r. by rewrite take_drop.
  - cbn [fill_loop crazy_fill].
    set (p1 := read_unsafe m (Z.of_nat k - 1)).
    set (p2 := read_unsafe m (Z.of_nat k - 2)).
    rewrite write_unsafe_nat by lia.
    replace (Z.of_nat k + 1) with (Z.of_nat (S k)) by lia.
    rewrite IH; [|lia|by rewrite length_insert].
    rewrite insert_take_drop_S by lia.
    rewrite drop_insert_lt by lia.
    replace (Z.of_nat (S k) - 1) with (Z.of_nat k) by lia.
    replace (Z.of_nat (S k) - 2) with (Z.of_nat k - 1) by lia.
    rewrite (read_unsafe_nat _ k (crazy p1 p2));
      [|lia|by apply list_lookup_insert_eq; lia].
    assert (Hp1 : read_unsafe (<[k := crazy p1 p2]> m) (Z.of_nat k - 1) = p1).
    { unfold p1, read_unsafe, getitem.
      rewrite list_lookup_insert_ne; [done|].
      pose proof SIZE_nat as HS.
      pose proof (Z.mod_pos_bound (Z.of_nat k - 1) SIZE ltac:(unfold SIZE; lia)).
      destruct (decide (k = 0%nat)) as [->|Hne].
      - change (Z.of_nat 0 - 1) with (-1). change ((-1) mod SIZE) with 59048.
        lia.
      - rewrite Z.mod_small by lia. lia. }
    rewrite Hp1. rewrite <- app_assoc. cbn [app].
    replace (S k + n)%nat with (k + S n)%nat by lia. done.
Qed.

(** ** load *)

(** [load] writes memory only: the registers, the output, the halted flag
    and the cycle counter come out as they went in, whatever the result. *)
Lemma load_registers (program : list Z) (s : VMState) :
  let s' := snd (load program s) in
  a s' = a s /\ c s' = c s /\ d s' = d s
  /\ output s' = output s /\ halted s' = halted s /\ cycles s' = cycles s.
Proof.
  unfold load. destruct (_ >? SIZE); [done|].
  destruct (load_chars _ _ _) as [[?|?] m]; done.
Qed.

Lemma load_too_large (program : list Z) (s : VMState) :
  SIZE < Z.of_nat (length (strip program)) ->
  load program s = (Err (ProgramTooLarge (Z.of_nat (length (strip program)))), s).
Proof.
  intros H. unfold load. fold (strip program).
  destruct (_ >? SIZE) eqn:E; [done|lia].
Qed.

Lemma load_valid (program : list Z) (s : VMState) :
  length (memory s) = Z.to_nat SIZE ->
  Z.of_nat (length (strip program)) <= SIZE ->
  Forall valid_char (strip program) ->
  load program s
  = (Ok tt, set_memory s (loaded_memory (strip program) (memory s))).
Proof.
  intros Hm Hlen Hv. unfold loaded_memory. cbv zeta.
  set (code := strip program) in *.
  set (mid := loaded_text code (memory s)).
  set (len := Z.of_nat (length code)) in *.
  unfold load. fold (strip program). fold code. fold len.
  destruct (len >? SIZE) eqn:E; [lia|].
  pose proof SIZE_nat as HS.
  pose proof (load_chars_valid code 0 (memory s) Hv ltac:(lia) Hm) as Hc.
  change (Z.of_nat 0) with 0 in Hc.
  change (take 0 (memory s)) with (@nil Tryte) in Hc.
  change (0 + length code)%nat with (length code) in Hc.
  rewrite Hc. cbn [app]. fold (loaded_text code (memory s)). fold mid.
  assert (Hmid : length mid = Z.to_nat SIZE).
  { unfold mid, loaded_text. rewrite length_app, length_fmap, length_drop. lia. }
  unfold len at 2. rewrite fill_loop_eq by (assumption || lia).
  fold len. do 2 f_equal.
  replace (length code + Z.to_nat (SIZE - len))%nat with (length mid) by lia.
  rewrite drop_all, app_nil_r. f_equal.
  unfold mid, loaded_text.
  rewrite take_app_length'; [done | by rewrite length_fmap].
Qed.

Lemma load_invalid (program : list Z) (s : VMState)
      (pre : list Z) (ch : Z) (post : list Z) :
  strip program = pre ++ ch :: post ->
  Forall valid_char pre ->
  ~ valid_char ch ->
  length (memory s) = Z.to_nat SIZE ->
  Z.of_nat (length (strip program)) <= SIZE ->
  load program s
  = (Err (InvalidCharacter (Z.of_nat (length pre)) ch),
     set_memory s (loaded_text pre (memory s))).
Proof.
  intros Hs Hpre Hch Hm Hlen. unfold load. fold (strip program).
  destruct (_ >? SIZE) eqn:E; [lia|].
  rewrite Hs in Hlen |- *. rewrite length_app in Hlen. cbn [length] in Hlen.
  pose proof SIZE_nat as HS.
  pose proof (load_chars_invalid pre ch post 0 (memory s)
                Hpre Hch ltac:(lia) Hm) as Hc.
  change (Z.of_nat 0) with 0 in Hc.
  change (take 0 (memory s)) with (@nil Tryte) in Hc.
  change (0 + length pre)%nat with (length pre) in Hc.
  by rewrite Hc.
Qed.

Lemma loaded_text_lookup_lt (code : list Z) (m : SafeMemory) (k : nat) (cp : Z) :
  code !! k = Some cp -> loaded_text code m !! k = Some (mkTryte cp).
Proof.
  intros Hk. unfold loaded_text.
  rewrite lookup_app_l by (rewrite length_fmap; by eapply lookup_lt_Some).
  by rewrite list_lookup_fmap, Hk.
Qed.

Lemma loaded_text_lookup_ge (code : list Z) (m : SafeMemory) (k : nat) :
  (length code <= k)%nat -> loaded_text code m !! k = m !! k.
Proof.
  intros Hk. unfold loaded_text.
  rewrite lookup_app_r by (rewrite length_fmap; lia).
  rewrite lookup_drop, length_fmap. f_equal. lia.
Qed.

Lemma loaded_text_length (code : list Z) (m : SafeMemory) :
  (length code <= length m)%nat -> length (loaded_text code m) = length m.
Proof.
  intros H. unfold loaded_text.
  rewrite length_app, length_fmap, length_drop. lia.
Qed.

Lemma loaded_text_wf (code : list Z) (m : SafeMemory) :
  (length code <= length m)%nat -> mem_wf m -> mem_wf (loaded_text code m).
Proof.
  intros Hl [Hm Hf]. split.
  - by rewrite loaded_text_length.
  - unfold loaded_text. apply Forall_app. split.
    + apply Forall_fmap, Forall_true. intros x. apply mkTryte_wf.
    + by apply Forall_drop.
Qed.

(** ** Well-formedness is kept by every method *)

Lemma load_wf (program : list Z) (s : VMState) :
  state_wf s -> state_wf (snd (load program s)).
Proof.
  intros (Ha & Hc & Hd & [Hl Hf] & Hcy).
  pose proof SIZE_nat as HS.
  destruct (Z_lt_dec SIZE (Z.of_nat (length (strip program)))) as [Hbig|Hfit].
  { rewrite load_too_large by done. cbn [snd].
    unfold state_wf, mem_wf. split_and!; assumption. }
  destruct (valid_or_first_invalid (strip program))
    as [Hv | (pre & ch & post & Hs & Hpre & Hch)].
  - rewrite load_valid by (assumption || lia). cbn [snd].
    unfold state_wf, mem_wf, set_memory; cbn [a c d memory cycles].
    split_and!; try assumption.
    + unfold loaded_memory.
      rewrite length_app, length_fmap, crazy_fill_length. lia.
    + unfold loaded_memory. apply Forall_app. split; [|apply crazy_fill_wf].
      apply Forall_fmap, Forall_true. intros x. apply mkTryte_wf.
  - rewrite (load_invalid program s pre ch post) by (assumption || lia). cbn [snd].
    assert (Hle : (length pre <= length (memory s))%nat).
    { rewrite Hs, length_app in Hfit. lia. }
    unfold state_wf, set_memory; cbn [a c d memory cycles].
    split_and!; try assumption.
    apply loaded_text_wf; [assumption | by split].
Qed.

Lemma increment_wf (s : VMState) :
  state_wf s -> state_wf (snd (increment s)).
Proof.
  intros (Ha & Hc & Hd & Hm & Hcy).
  unfold state_wf, increment; cbn [snd a c d memory cycles].
  split_and!; try assumption; try apply Tryte_add_wf. lia.
Qed.

Lemma step_wf (s : VMState) : state_wf s -> state_wf (snd (step s)).
Proof.
  intros Hwf. pose proof Hwf as (Ha & Hc & Hd & Hm & Hcy).
  assert (Hset_d : forall v, Tryte_wf v -> state_wf (set_d s v)).
  { intros v Hv. unfold state_wf. split_and!; assumption. }
  assert (Hset_c : forall v, Tryte_wf v -> state_wf (set_c s v)).
  { intros v Hv. unfold state_wf. split_and!; assumption. }
  assert (Hset_am : forall v, Tryte_wf v ->
            state_wf (set_a (set_memory s (write_unsafe (memory s) (value (d s)) v)) v)).
  { intros v Hv. unfold state_wf, set_a, set_memory; cbn [a c d memory cycles].
    split_and!; try assumption. by apply write_unsafe_wf. }
  unfold step.
  destruct (halted s); [assumption|].
  destruct (read (memory s) (value (c s))) as [fetched|e]; [|assumption].
  destruct (decrypt_instruction _ _) as [op|e]; [|assumption].
  rewrite (read_Tryte _ _ Hd).
  repeat match goal with
         | |- context [String.eqb op ?x] => destruct (String.eqb op x)
         end;
    try (apply increment_wf); try assumption.
  - apply Hset_d, getitem_wf, Hm.
  - cbn [snd]. apply Hset_c, getitem_wf, Hm.
  - apply Hset_am, rotate_right_wf.
  - apply Hset_am, crazy_wf.
Qed.

Lemma reachable_wf (s : VMState) : reachable s -> state_wf s.
Proof.
  induction 1 as [|program s _ IH|s _ IH].
  - apply new_wf.
  - by apply load_wf.
  - by apply step_wf.
Qed.

(** ** step, one opcode at a time *)

Lemma step_halted (s : VMState) :
  halted s = true -> step s = (Ok false, s).
Proof. intros H. unfold step. by rewrite H. Qed.

Lemma step_decode_error (s : VMState) (e : DecodeError) :
  state_wf s -> halted s = false ->
  decrypt_instruction (value (fetched_cell s)) (value (c s)) = Err e ->
  step s = (Err (FailedToDecrypt e), s).
Proof.
  intros (_ & Hc & _) Hh Hdec. unfold step.
  rewrite Hh, (read_Tryte _ _ Hc). cbv zeta.
  unfold fetched_cell in Hdec. by rewrite Hdec.
Qed.

Lemma step_halt (s : VMState) :
  state_wf s -> halted s = false ->
  decrypt_instruction (value (fetched_cell s)) (value (c s)) = Ok "v"%string ->
  step s = (Ok false, set_halted s true).
Proof.
  intros (_ & Hc & _) Hh Hdec. unfold step.
  rewrite Hh, (read_Tryte _ _ Hc). cbv zeta.
  unfold fetched_cell in Hdec. by rewrite Hdec.
Qed.

Lemma step_jump_code (s : VMState) :
  state_wf s -> halted s = false ->
  decrypt_instruction (value (fetched_cell s)) (value (c s)) = Ok "i"%string ->
  step s = (Ok true, set_c s (getitem (memory s) (value (d s)))).
Proof.
  intros (_ & Hc & Hd & _) Hh Hdec. unfold step.
  rewrite Hh, (read_Tryte _ _ Hc). cbv zeta.
  unfold fetched_cell in Hdec. rewrite Hdec.
  by rewrite (read_Tryte _ _ Hd).
Qed.

(** ** load: what a failure leaves behind (C2) *)

Lemma new_memory_length : length (memory new) = Z.to_nat SIZE.
Proof. apply length_replicate. Qed.

Lemma new_memory_cell (k : nat) :
  (k < Z.to_nat SIZE)%nat -> memory new !! k = Some (mkTryte 0).
Proof. intros Hk. by apply lookup_replicate_2. Qed.

(** The text "A" followed by U+007F: one valid character, then one that is
    neither whitespace nor in [33,126]. *)
Lemma load_A_DEL :
  load [65; 127] new
  = (Err (InvalidCharacter 1 127), set_memory new (loaded_text [65] (memory new))).
Proof.
  apply (load_invalid [65; 127] new [65] 127 []).
  - reflexivity.
  - repeat constructor; unfold valid_char; lia.
  - unfold valid_char; lia.
  - apply new_memory_length.
  - change (Z.of_nat (length (strip [65; 127]))) with 2. unfold SIZE; lia.
Qed.

(** C2, counterexample: on a fresh interpreter, loading "A" followed by
    U+007F fails with the invalid-character error for position 1, yet cell 0,
    which held 0, now holds 65: the state after the failed call is not the
    state before it. *)
Lemma load_invalid_character_not_atomic :
  fst (load [65; 127] new) = Err (InvalidCharacter 1 127)
  /\ read (memory new) 0 = Ok (mkTryte 0)
  /\ read (memory (snd (load [65; 127] new))) 0 = Ok (mkTryte 65)
  /\ snd (load [65; 127] new) <> new.
Proof.
  rewrite load_A_DEL. cbn [fst snd].
  assert (H0 : read (memory new) 0 = Ok (mkTryte 0)).
  { rewrite read_in_range by (unfold SIZE; lia).
    apply (f_equal Ok). apply (getitem_lookup _ 0%nat), new_memory_cell.
    pose proof SIZE_nat; unfold SIZE in *; lia. }
  assert (H1 : read (memory (set_memory new (loaded_text [65] (memory new)))) 0
               = Ok (mkTryte 65)).
  { rewrite read_in_range by (unfold SIZE; lia).
    apply (f_equal Ok). by apply (getitem_lookup _ 0%nat), loaded_text_lookup_lt. }
  split_and!; [reflexivity | exact H0 | exact H1 |].
  intros Heq. rewrite Heq, H0 in H1. discriminate H1.
Qed.

(** C2, amended: a failed [load] leaves the registers, the output, the
    halted flag and the cycle counter as they were.  When the failure is
    "program too large" the whole state is as before.  When it is "invalid
    character at position i", [i] is the position of the first character of
    the stripped text outside [33,126] (the character there is outside the
    range, the characters before it are inside); the cells from [i] on are
    as before, and the cells below [i] hold the code points of the
    characters before it. *)
Theorem load_failure_frame (program : list Z) (s : VMState) (e : LoadError) :
  state_wf s ->
  fst (load program s) = Err e ->
  let s' := snd (load program s) in
  (a s' = a s /\ c s' = c s /\ d s' = d s
   /\ output s' = output s /\ halted s' = halted s /\ cycles s' = cycles s)
  /\ match e with
     | ProgramTooLarge len =>
         len = Z.of_nat (length (strip program)) /\ SIZE < len /\ s' = s
     | InvalidCharacter i ch =>
         0 <= i < SIZE
         /\ strip program !! Z.to_nat i = Some ch /\ ~ valid_char ch
         /\ Forall valid_char (take (Z.to_nat i) (strip program))
         /\ (forall (j : nat) (cp : Z),
                strip program !! j = Some cp -> Z.of_nat j < i ->
                read (memory s') (Z.of_nat j) = Ok (mkTryte cp))
         /\ (forall j : Z,
                i <= j < SIZE -> read (memory s') j = read (memory s) j)
     end.
Proof.
  intros (_ & _ & _ & [Hl _] & _) He s'. split; [apply load_registers|].
  subst s'. pose proof SIZE_nat as HS.
  destruct (Z_lt_dec SIZE (Z.of_nat (length (strip program)))) as [Hbig|Hfit].
  { rewrite load_too_large in He |- * by assumption.
    cbn [fst snd] in *. injection He as <-. by split_and!. }
  destruct (valid_or_first_invalid (strip program))
    as [Hv | (pre & ch & post & Hs & Hpre & Hch)].
  { rewrite load_valid in He by (assumption || lia). discriminate He. }
  rewrite (load_invalid program s pre ch post) in He |- *
    by (assumption || lia).
  cbn [fst snd memory set_memory] in *. injection He as <-.
  assert (Hlen : Z.of_nat (length pre) < SIZE).
  { rewrite Hs, length_app in Hfit. cbn [length] in Hfit. lia. }
  rewrite Nat2Z.id. split_and!; try lia; try assumption.
  - rewrite Hs. by apply list_lookup_middle.
  - rewrite Hs, take_app_length. exact Hpre.
  - intros j cp Hj Hlt.
    rewrite read_in_range by lia. apply (f_equal Ok).
    apply getitem_lookup, loaded_text_lookup_lt.
    rewrite Hs, lookup_app_l in Hj by lia. exact Hj.
  - intros j Hj. rewrite !read_in_range by lia. apply (f_equal Ok).
    unfold getitem. rewrite loaded_text_lookup_ge by lia. reflexivity.
Qed.

Lemma load_failure_frame_witness :
  read (memory (snd (load [65; 127] new))) 1 = read (memory new) 1.
Proof.
  assert (He : fst (load [65; 127] new) = Err (InvalidCharacter 1 127))
    by (rewrite load_A_DEL; reflexivity).
  destruct (load_failure_frame [65; 127] new (InvalidCharacter 1 127)
              new_wf He) as (_ & _ & _ & _ & _ & _ & H).
  apply H. unfold SIZE. lia.
Defined.

(** ** load: the memory after a successful load (C4) *)

Section LoadedMemory.

Variable code : list Z.
Variable m : SafeMemory.

Hypothesis Hfit : Z.of_nat (length code) <= SIZE.
Hypothesis Hm : length m = Z.to_nat SIZE.

Local Abbreviation len := (Z.of_nat (length code)).
Local Abbreviation mid := (loaded_text code m).
Local Abbreviation prev1 := (read_unsafe mid (len - 1)).
Local Abbreviation prev2 := (read_unsafe mid (len - 2)).
Local Abbreviation filled := (crazy_fill (Z.to_nat (SIZE - len)) prev1 prev2).
Local Abbreviation final := (loaded_memory code m).
Local Abbreviation before := (cell_before final m).

Lemma final_text (i : nat) (cp : Z) :
  code !! i = Some cp -> read_unsafe final (Z.of_nat i) = mkTryte cp.
Proof.
  intros Hi. pose proof SIZE_nat as HS.
  pose proof (lookup_lt_Some _ _ _ Hi) as Hlt.
  apply read_unsafe_nat; [lia|].
  unfold loaded_memory. rewrite lookup_app_l by (rewrite length_fmap; lia).
  by rewrite list_lookup_fmap, Hi.
Qed.

Lemma mid_text (i : nat) (cp : Z) :
  code !! i = Some cp -> read_unsafe mid (Z.of_nat i) = mkTryte cp.
Proof.
  intros Hi. pose proof SIZE_nat as HS.
  pose proof (lookup_lt_Some _ _ _ Hi) as Hlt.
  apply read_unsafe_nat; [lia|].
  by apply loaded_text_lookup_lt.
Qed.

(** The seeds of the second loop are the cells before its first one. *)
Lemma mid_before (q : Z) :
  len - 2 <= q < len -> read_unsafe mid q = before q.
Proof.
  intros Hq. pose proof SIZE_nat as HS. unfold cell_before.
  destruct (0 <=? q) eqn:E.
  - apply Z.leb_le in E.
    destruct (lookup_lt_is_Some_2 code (Z.to_nat q)) as [cp Hcp]; [lia|].
    rewrite <- (Z2Nat.id q) by lia.
    by rewrite (mid_text _ cp), (final_text _ cp).
  - apply Z.leb_gt in E. unfold read_unsafe, getitem.
    assert (Hmod : q mod SIZE = q + SIZE).
    { symmetry. apply Z.mod_unique with (q := -1); unfold SIZE; lia. }
    rewrite loaded_text_lookup_ge; [reflexivity|].
    rewrite Hmod. unfold SIZE. lia.
Qed.

Lemma final_filled (j : nat) :
  (j < Z.to_nat (SIZE - len))%nat ->
  filled !! j = Some (read_unsafe final (len + Z.of_nat j)).
Proof.
  intros Hj. pose proof SIZE_nat as HS.
  destruct (lookup_lt_is_Some_2 filled j) as [t Ht].
  { rewrite crazy_fill_length. lia. }
  rewrite Ht. f_equal. symmetry.
  replace (len + Z.of_nat j) with (Z.of_nat (length code + j)) by lia.
  apply read_unsafe_nat; [lia|].
  unfold loaded_memory. rewrite lookup_app_r by (rewrite length_fmap; lia).
  rewrite length_fmap.
  by replace (length code + j - length code)%nat with j by lia.
Qed.

(** The seeds and the filled cells, as one sequence over the addresses
    [len - 2], [len - 1], [len], ... *)
Lemma seeded_before (j : nat) :
  (j < 2 + Z.to_nat (SIZE - len))%nat ->
  (prev2 :: prev1 :: filled) !! j = Some (before (len + Z.of_nat j - 2)).
Proof.
  intros Hj. destruct j as [|[|j]].
  - cbn [lookup list_lookup]. f_equal.
    replace (len + Z.of_nat 0 - 2) with (len - 2) by lia.
    apply mid_before. lia.
  - cbn [lookup list_lookup]. f_equal.
    replace (len + Z.of_nat 1 - 2) with (len - 1) by lia.
    apply mid_before. lia.
  - cbn [lookup list_lookup]. rewrite final_filled by lia.
    f_equal. unfold cell_before.
    replace (len + Z.of_nat (S (S j)) - 2) with (len + Z.of_nat j) by lia.
    destruct (0 <=? _) eqn:E; [reflexivity|]. apply Z.leb_gt in E. lia.
Qed.

Lemma final_recurrence (i : Z) :
  len <= i < SIZE ->
  read_unsafe final i = crazy (before (i - 1)) (before (i - 2)).
Proof.
  intros Hi. pose proof SIZE_nat as HS.
  set (k := Z.to_nat (i - len)).
  assert (Hk : (k < Z.to_nat (SIZE - len))%nat) by (unfold k; lia).
  pose proof (crazy_fill_rec (Z.to_nat (SIZE - len)) prev1 prev2 k
                (before (i - 1)) (before (i - 2)) Hk) as Hrec.
  rewrite !seeded_before in Hrec by lia.
  replace (len + Z.of_nat k - 2) with (i - 2) in Hrec by (unfold k; lia).
  replace (len + Z.of_nat (S k) - 2) with (i - 1) in Hrec by (unfold k; lia).
  replace (len + Z.of_nat (S (S k)) - 2) with i in Hrec by (unfold k; lia).
  specialize (Hrec eq_refl eq_refl). injection Hrec as <-.
  unfold cell_before at 1.
  destruct (0 <=? i) eqn:E; [reflexivity|].
  apply Z.leb_gt in E. lia.
Qed.

End LoadedMemory.

Lemma read_unsafe_in_range (m : SafeMemory) (i : Z) :
  0 <= i < SIZE -> read_unsafe m i = getitem m i.
Proof. intros H. unfold read_unsafe. by rewrite Z.mod_small. Qed.

Lemma load_ok (program : list Z) (s : VMState) :
  state_wf s ->
  Z.of_nat (length (strip program)) <= SIZE ->
  Forall valid_char (strip program) ->
  fst (load program s) = Ok tt.
Proof.
  intros (_ & _ & _ & [Hl _] & _) Hfit Hv.
  by rewrite load_valid by assumption.
Qed.

(** After a successful load the cells of the program text hold its code
    points. *)
Lemma load_text_cell (program : list Z) (s : VMState) (i : nat) (cp : Z) :
  state_wf s ->
  Z.of_nat (length (strip program)) <= SIZE ->
  Forall valid_char (strip program) ->
  strip program !! i = Some cp ->
  getitem (memory (snd (load program s))) (Z.of_nat i) = mkTryte cp.
Proof.
  intros (_ & _ & _ & [Hl _] & _) Hfit Hv Hi.
  rewrite load_valid by assumption. cbn [snd memory set_memory].
  rewrite <- read_unsafe_in_range.
  - by apply final_text.
  - pose proof (lookup_lt_Some _ _ _ Hi). lia.
Qed.

(** C4, amended: after a successful load of a text whose stripped form has
    length [L <= 59049] and only code points in [33,126], every cell
    [i < L] holds the Tryte of the [i]-th code point, and every cell [i]
    with [L <= i < 59049] equals [crazy (p1, p2)], where [p1] is cell
    [i - 1] and [p2] is cell [i - 2] of the loaded memory when that address
    is not negative, and otherwise the content, before the call, of the cell
    the negative address wraps to. *)
Theorem load_fills_memory (program : list Z) (s : VMState) :
  state_wf s ->
  Z.of_nat (length (strip program)) <= SIZE ->
  Forall valid_char (strip program) ->
  let m' := memory (snd (load program s)) in
  let before := cell_before m' (memory s) in
  fst (load program s) = Ok tt
  /\ (forall (i : nat) (cp : Z),
         strip program !! i = Some cp ->
         read_unsafe m' (Z.of_nat i) = mkTryte cp)
  /\ (forall i : Z,
         Z.of_nat (length (strip program)) <= i < SIZE ->
         read_unsafe m' i = crazy (before (i - 1)) (before (i - 2))).
Proof.
  intros Hwf Hfit Hv m' before.
  split; [by apply load_ok|].
  destruct Hwf as (_ & _ & _ & [Hl _] & _).
  subst before m'. rewrite load_valid by assumption.
  cbn [snd memory set_memory]. split.
  - intros i cp Hi. by apply final_text.
  - intros i Hi. by apply final_recurrence.
Qed.

Lemma halt_program_valid :
  Z.of_nat (length (strip halt_program)) <= SIZE
  /\ Forall valid_char (strip halt_program).
Proof.
  split.
  - change (Z.of_nat (length (strip halt_program))) with 1. unfold SIZE; lia.
  - change (strip halt_program) with [39].
    repeat constructor; unfold valid_char; lia.
Qed.

Lemma load_fills_memory_witness :
  read_unsafe (memory (snd (load halt_program new))) (Z.of_nat 0) = mkTryte 39.
Proof.
  destruct halt_program_valid as [Hfit Hv].
  destruct (load_fills_memory halt_program new new_wf Hfit Hv) as (_ & H & _).
  by apply H.
Defined.

Lemma load_halt_program :
  load halt_program new
  = (Ok tt, set_memory new (loaded_memory [39] (memory new))).
Proof.
  destruct halt_program_valid as [Hfit Hv].
  rewrite load_valid by (assumption || apply new_memory_length).
  reflexivity.
Qed.

Lemma halt_program_memory_cells :
  let m' := loaded_memory [39] (memory new) in
  read_unsafe m' 1 = mkTryte 29524
  /\ read_unsafe m' ((1 - 1) mod SIZE) = mkTryte 39
  /\ read_unsafe m' ((1 - 2) mod SIZE) = mkTryte 39.
Proof. vm_compute. by split_and!. Qed.

(** C4, counterexample: a fresh interpreter loads the one-character text
    "'".  Cell 1 is filled from cell 0 and from cell 59048 as it was when
    the loop read it (0), which gives 29524; cell 59048 of the loaded memory
    holds 39, so [crazy (cell 0, cell 59048)] on the loaded memory is 29485,
    not the content of cell 1. *)
Lemma load_fill_reads_cell_before_load :
  let m' := memory (snd (load halt_program new)) in
  fst (load halt_program new) = Ok tt
  /\ read_unsafe m' 1 = mkTryte 29524
  /\ crazy (read_unsafe m' ((1 - 1) mod SIZE))
           (read_unsafe m' ((1 - 2) mod SIZE)) = mkTryte 29485
  /\ read_unsafe m' 1
     <> crazy (read_unsafe m' ((1 - 1) mod SIZE))
              (read_unsafe m' ((1 - 2) mod SIZE)).
Proof.
  rewrite load_halt_program. cbn [fst snd memory set_memory].
  destruct halt_program_memory_cells as (H1 & H0 & Hlast).
  rewrite H1, H0, Hlast.
  assert (Hc : crazy (mkTryte 39) (mkTryte 39) = mkTryte 29485)
    by (vm_compute; reflexivity).
  rewrite Hc. split_and!; try reflexivity.
  intros Heq. apply (f_equal value) in Heq. vm_compute in Heq. discriminate Heq.
Qed.

(** ** load and the registers (C3) *)

Lemma value_mkTryte_0 : value (mkTryte 0) = 0.
Proof. reflexivity. Qed.

Lemma isspace_valid_char (ch : Z) : valid_char ch -> isspace ch = false.
Proof.
  unfold valid_char, isspace. intros H.
  repeat (apply orb_false_iff; split);
    try (apply andb_false_iff); lia.
Qed.

Lemma decrypt_halt_code_point (cp : Z) :
  decrypt_instruction cp 0 = Ok "v"%string -> valid_char cp.
Proof.
  intros H. unfold valid_char.
  destruct (Z_lt_dec cp 33) as [Hlt|?];
    [rewrite decrypt_instruction_invalid in H by lia; discriminate H|].
  destruct (Z_lt_dec 126 cp) as [Hgt|?];
    [rewrite decrypt_instruction_invalid in H by lia; discriminate H|].
  lia.
Qed.

Lemma strip_single_valid (cp : Z) : valid_char cp -> strip [cp] = [cp].
Proof.
  intros H. unfold strip. cbn [List.filter].
  by rewrite isspace_valid_char.
Qed.

(** A fresh interpreter that has loaded the one-character text [cp], for a
    code point that decodes to halt at address 0, halts on its first step. *)
Lemma step_loaded_halt (cp : Z) :
  decrypt_instruction cp 0 = Ok "v"%string ->
  let s := snd (load [cp] new) in
  state_wf s /\ halted s = false /\ cycles s = 0 /\ output s = []
  /\ fst (load [cp] new) = Ok tt
  /\ step s = (Ok false, set_halted s true).
Proof.
  intros Hd s.
  pose proof (decrypt_halt_code_point cp Hd) as Hcp.
  pose proof (strip_single_valid cp Hcp) as Hs.
  assert (Hfit : Z.of_nat (length (strip [cp])) <= SIZE).
  { rewrite Hs. cbn [length]. unfold SIZE. lia. }
  assert (Hv : Forall valid_char (strip [cp])).
  { rewrite Hs. apply Forall_cons. split; [assumption | constructor]. }
  assert (Hwf : state_wf s) by apply load_wf, new_wf.
  destruct (load_registers [cp] new) as (_ & Hc & _ & Ho & Hh & Hcy).
  fold s in Hc, Ho, Hh, Hcy.
  split_and!; try assumption.
  - by apply load_ok; [apply new_wf|..].
  - apply step_halt; [assumption..|].
    unfold fetched_cell. rewrite Hc. cbn [new c]. rewrite value_mkTryte_0.
    assert (Hcell : strip [cp] !! 0%nat = Some cp) by (by rewrite Hs).
    pose proof (load_text_cell [cp] new 0 cp new_wf Hfit Hv Hcell) as Hg.
    change (Z.of_nat 0) with 0 in Hg. fold s in Hg. rewrite Hg.
    rewrite mkTryte_small by (unfold valid_char, MAX_VALUE in *; lia).
    exact Hd.
Qed.

(** C3, counterexample: the interpreter that has loaded "'" and executed
    its halt is in a reachable state with the halted flag set; loading "'"
    again succeeds and the flag is still set. *)
Lemma load_keeps_halted_flag :
  let s := snd (step (snd (load halt_program new))) in
  reachable s
  /\ halted s = true
  /\ fst (load halt_program s) = Ok tt
  /\ halted (snd (load halt_program s)) = true.
Proof.
  intros s.
  assert (Hr : reachable s).
  { unfold s. apply reachable_step, reachable_load, reachable_new. }
  assert (Hh : halted s = true).
  { unfold s, halt_program.
    destruct (step_loaded_halt 39 eq_refl) as (_ & _ & _ & _ & _ & ->).
    reflexivity. }
  destruct halt_program_valid as [Hfit Hv].
  destruct (load_registers halt_program s) as (_ & _ & _ & _ & Hh' & _).
  split_and!; [exact Hr | exact Hh | | rewrite Hh'; exact Hh].
  apply load_ok; [apply reachable_wf; exact Hr | exact Hfit | exact Hv].
Qed.

(** C3, amended: a successful [load] leaves the accumulator, the code
    pointer, the data pointer, the output, the halted flag and the cycle
    counter as they were before the call (it resets none of them); on a
    freshly constructed interpreter they are therefore the zero Trytes, the
    empty output, a cleared flag and a zero counter. *)
Theorem load_success_registers :
  (forall (program : list Z) (s : VMState),
      fst (load program s) = Ok tt ->
      let s' := snd (load program s) in
      a s' = a s /\ c s' = c s /\ d s' = d s
      /\ output s' = output s /\ halted s' = halted s
      /\ cycles s' = cycles s)
  /\ (forall program : list Z,
         fst (load program new) = Ok tt ->
         let s' := snd (load program new) in
         a s' = mkTryte 0 /\ c s' = mkTryte 0 /\ d s' = mkTryte 0
         /\ output s' = [] /\ halted s' = false /\ cycles s' = 0).
Proof.
  split.
  - intros program s _. apply load_registers.
  - intros program _. apply (load_registers program new).
Qed.

Lemma load_success_registers_witness :
  fst (load halt_program new) = Ok tt
  /\ cycles (snd (load halt_program new)) = 0.
Proof.
  assert (H : fst (load halt_program new) = Ok tt)
    by (rewrite load_halt_program; reflexivity).
  split; [exact H|].
  destruct load_success_registers as [_ Hnew].
  apply (Hnew halt_program H).
Defined.

(** ** run *)

Lemma run_exit_below (s : VMState) (max_cycles : Z) :
  cycles s < max_cycles ->
  run_exit s max_cycles = (Ok (string_of_list_ascii (output s)), s).
Proof.
  intros H. unfold run_exit.
  destruct (cycles s >=? max_cycles) eqn:E; [lia|done].
Qed.

Lemma run_exit_reached (s : VMState) (max_cycles : Z) :
  max_cycles <= cycles s ->
  run_exit s max_cycles = (Err (ExecutionLimitExceeded max_cycles), s).
Proof.
  intros H. unfold run_exit.
  destruct (cycles s >=? max_cycles) eqn:E; [done|lia].
Qed.

(** C6: for a one-character program whose character decodes to halt at
    address 0, a fresh interpreter loads it, and [run] with fuel limit 10
    leaves its loop after one step and returns success with the empty
    output string; the cycle counter is 0 and the machine is halted. *)
Theorem run_single_halt (cp : Z) (gas : nat) :
  decrypt_instruction cp 0 = Ok "v"%string ->
  fst (load [cp] new) = Ok tt
  /\ exists s' : VMState,
       run (S gas) 10 (snd (load [cp] new)) = Some (Ok ""%string, s')
       /\ cycles s' = 0 /\ halted s' = true /\ output s' = [].
Proof.
  intros Hd.
  destruct (step_loaded_halt cp Hd) as (_ & Hh & Hcy & Ho & Hok & Hstep).
  split; [exact Hok|].
  exists (set_halted (snd (load [cp] new)) true).
  cbn [run]. rewrite Hcy. change (0 <? 10) with true. cbv iota.
  rewrite Hstep. rewrite run_exit_below by (cbn [cycles set_halted]; lia).
  cbn [output cycles halted set_halted]. rewrite Ho.
  by split_and!.
Qed.

Lemma run_single_halt_witness :
  exists s' : VMState,
    run 1 10 (snd (load [39] new)) = Some (Ok ""%string, s')
    /\ cycles s' = 0 /\ halted s' = true /\ output s' = [].
Proof.
  apply (run_single_halt 39 0). reflexivity.
Defined.

(** C7: on any machine state that has not halted, [run] with fuel limit 0
    returns the execution-limit-exceeded failure without a step: the state
    it leaves is the state it found, so no cycle is consumed and the output
    is as it was; after a load on a fresh interpreter that output is
    empty. *)
Theorem run_zero_fuel (s : VMState) (gas : nat) :
  state_wf s ->
  halted s = false ->
  run (S gas) 0 s = Some (Err (ExecutionLimitExceeded 0), s)
  /\ forall program : list Z, output (snd (load program new)) = [].
Proof.
  intros (_ & _ & _ & _ & Hcy) _. split.
  - cbn [run]. destruct (cycles s <? 0) eqn:E; [lia|].
    by rewrite run_exit_reached.
  - intros program. apply (load_registers program new).
Qed.

Lemma run_zero_fuel_witness :
  run 1 0 new = Some (Err (ExecutionLimitExceeded 0), new).
Proof.
  apply (run_zero_fuel new 0 new_wf). reflexivity.
Defined.

(** C9: [step] on a machine whose halted flag is set returns [Ok False]
    and leaves the state, every component of it, as it was. *)
Theorem step_on_halted (s : VMState) :
  halted s = true ->
  fst (step s) = Ok false /\ snd (step s) = s.
Proof. intros H. by rewrite step_halted. Qed.

Lemma step_on_halted_witness :
  fst (step (set_halted new true)) = Ok false
  /\ snd (step (set_halted new true)) = set_halted new true.
Proof. apply (step_on_halted (set_halted new true)). reflexivity. Defined.

(** ** The checked reads of step (C10) *)

Lemma step_error_is_decode (s : VMState) (e : StepError) :
  state_wf s ->
  fst (step s) = Err e ->
  exists code : Z,
    e = FailedToDecrypt (InvalidCodePoint code)
    /\ code = value (fetched_cell s)
    /\ (code < 33 \/ 126 < code).
Proof.
  intros (_ & Hc & Hd & _) He. unfold step in He.
  destruct (halted s); [discriminate He|].
  rewrite (read_Tryte _ _ Hc) in He. cbv zeta in He.
  fold (fetched_cell s) in He.
  set (code := value (fetched_cell s)) in *.
  destruct (Z_lt_dec code 33) as [Hlt|Hge].
  { rewrite decrypt_instruction_invalid in He by lia.
    injection He as <-. exists code. split_and!; [reflexivity..|lia]. }
  destruct (Z_lt_dec 126 code) as [Hgt|Hle].
  { rewrite decrypt_instruction_invalid in He by lia.
    injection He as <-. exists code. split_and!; [reflexivity..|lia]. }
  destruct (decrypt_instruction_valid code (value (c s))) as [op Hop]; [lia|].
  rewrite Hop, (read_Tryte _ _ Hd) in He.
  repeat match type of He with
         | context [String.eqb op ?x] => destruct (String.eqb op x)
         end; discriminate He.
Qed.

(** C10: in every reachable state the checked read at the code pointer and
    the checked read at the data pointer (the one the opcodes [j], [i], [*]
    and [p] perform) succeed, so their failure branches are never taken,
    and the only error [step] returns is the decode failure, on a fetched
    cell whose value is outside [33,126]. *)
Theorem step_reads_succeed (s : VMState) :
  reachable s ->
  read (memory s) (value (c s)) = Ok (getitem (memory s) (value (c s)))
  /\ read (memory s) (value (d s)) = Ok (getitem (memory s) (value (d s)))
  /\ (forall e : StepError,
         fst (step s) = Err e ->
         exists code : Z,
           e = FailedToDecrypt (InvalidCodePoint code)
           /\ code = value (fetched_cell s)
           /\ (code < 33 \/ 126 < code)).
Proof.
  intros Hr. pose proof (reachable_wf s Hr) as Hwf.
  pose proof Hwf as (_ & Hc & Hd & _).
  split_and!.
  - by apply read_Tryte.
  - by apply read_Tryte.
  - intros e. by apply step_error_is_decode.
Qed.

Lemma step_reads_succeed_witness :
  read (memory new) (value (c new)) = Ok (getitem (memory new) (value (c new))).
Proof.
  destruct (step_reads_succeed new reachable_new) as (H & _). exact H.
Defined.

(** ** The run loop need not terminate (C1) *)

Lemma jump_loop_program_valid :
  Z.of_nat (length (strip jump_loop_program)) <= SIZE
  /\ Forall valid_char (strip jump_loop_program)
  /\ strip jump_loop_program !! 0%nat = Some 34
  /\ strip jump_loop_program !! 34%nat = Some 94.
Proof.
  assert (Hs : strip jump_loop_program = jump_loop_program)
    by (vm_compute; reflexivity).
  rewrite Hs. split_and!.
  - change (Z.of_nat (length jump_loop_program)) with 35. unfold SIZE; lia.
  - apply Forall_forall. intros x Hx. unfold jump_loop_program in Hx.
    apply elem_of_app in Hx as [Hx|Hx];
      [|apply elem_of_app in Hx as [Hx|Hx]].
    + apply list_elem_of_singleton in Hx as ->. unfold valid_char; lia.
    + apply elem_of_replicate in Hx as [-> _]. unfold valid_char; lia.
    + apply list_elem_of_singleton in Hx as ->. unfold valid_char; lia.
  - reflexivity.
  - reflexivity.
Qed.

(** A step that returns "continue" and leaves the state as it was, below
    the fuel limit, keeps the loop of [run] going for ever. *)
Lemma run_fixed_state (s : VMState) (max_cycles : Z) :
  cycles s < max_cycles ->
  step s = (Ok true, s) ->
  forall gas : nat, run gas max_cycles s = None.
Proof.
  intros Hlt Hstep gas. induction gas as [|gas IH]; [reflexivity|].
  cbn [run]. destruct (cycles s <? max_cycles) eqn:E; [|lia].
  by rewrite Hstep.
Qed.

(** The two steps of the loop, on any state laid out as the loaded program
    lays it out. *)
Lemma jump_loop_steps (s1 : VMState) :
  state_wf s1 -> halted s1 = false ->
  c s1 = mkTryte 0 -> d s1 = mkTryte 0 ->
  getitem (memory s1) 0 = mkTryte 34 ->
  getitem (memory s1) 34 = mkTryte 94 ->
  step s1 = (Ok true, set_c s1 (mkTryte 34))
  /\ step (set_c s1 (mkTryte 34)) = (Ok true, set_c s1 (mkTryte 34)).
Proof.
  intros Hwf1 Hh Hc Hd Hcell0 Hcell34.
  assert (Hwf2 : state_wf (set_c s1 (mkTryte 34))).
  { destruct Hwf1 as (Ha & _ & Hd1 & Hm & Hcy1).
    unfold state_wf; cbn [a c d memory cycles set_c].
    split_and!; try assumption. apply mkTryte_wf. }
  assert (Hd0 : getitem (memory s1) (value (d s1)) = mkTryte 34).
  { rewrite Hd, value_mkTryte_0. exact Hcell0. }
  split.
  - rewrite step_jump_code; [rewrite Hd0; reflexivity | exact Hwf1 | exact Hh |].
    unfold fetched_cell. rewrite Hc, value_mkTryte_0, Hcell0. reflexivity.
  - rewrite step_jump_code; [| exact Hwf2 | exact Hh |].
    + cbn [memory d set_c]. rewrite Hd0. reflexivity.
    + unfold fetched_cell. cbn [memory c set_c].
      change (value (mkTryte 34)) with 34. rewrite Hcell34. reflexivity.
Qed.

Lemma jump_loop_loaded :
  let s1 := snd (load jump_loop_program new) in
  fst (load jump_loop_program new) = Ok tt
  /\ cycles s1 = 0
  /\ step s1 = (Ok true, set_c s1 (mkTryte 34))
  /\ step (set_c s1 (mkTryte 34)) = (Ok true, set_c s1 (mkTryte 34)).
Proof.
  intros s1.
  destruct jump_loop_program_valid as (Hfit & Hv & H0 & H34).
  assert (Hwf1 : state_wf s1) by apply load_wf, new_wf.
  destruct (load_registers jump_loop_program new)
    as (_ & Hc & Hd & _ & Hh & Hcy).
  fold s1 in Hc, Hd, Hh, Hcy.
  pose proof (load_text_cell _ new _ _ new_wf Hfit Hv H0) as Hcell0.
  pose proof (load_text_cell _ new _ _ new_wf Hfit Hv H34) as Hcell34.
  fold s1 in Hcell0, Hcell34.
  change (Z.of_nat 0) with 0 in Hcell0.
  change (Z.of_nat 34) with 34 in Hcell34.
  split; [apply load_ok; [apply new_wf | exact Hfit | exact Hv]|].
  split; [exact Hcy|].
  exact (jump_loop_steps s1 Hwf1 Hh Hc Hd Hcell0 Hcell34).
Qed.

Lemma cycles_set_c (s : VMState) (v : Tryte) : cycles (set_c s v) = cycles s.
Proof. reflexivity. Qed.

(** A step that continues without counting a cycle, into a state that
    [step] maps to itself, starts a loop that [run] never leaves. *)
Lemma run_enters_fixed_state (s1 s2 : VMState) (max_cycles : Z) (gas : nat) :
  0 < max_cycles ->
  cycles s1 = 0 -> cycles s2 = 0 ->
  step s1 = (Ok true, s2) ->
  step s2 = (Ok true, s2) ->
  run gas max_cycles s1 = None.
Proof.
  intros Hpos Hcy1 Hcy2 Hs1 Hs2.
  destruct gas as [|gas]; [reflexivity|].
  cbn [run]. rewrite Hcy1.
  destruct (0 <? max_cycles) eqn:E; [|lia].
  rewrite Hs1. apply run_fixed_state; [lia | exact Hs2].
Qed.

(** C1, at the failing input: on a fresh interpreter that has loaded
    [jump_loop_program], [run] with any positive fuel limit never leaves its
    loop: however many iterations the model is given, no result comes
    back.  Every step executes [i], which returns before the cycle counter
    is incremented, so the counter stays at 0. *)
Theorem run_jump_loop_diverges (max_cycles : Z) (gas : nat) :
  0 < max_cycles ->
  fst (load jump_loop_program new) = Ok tt
  /\ run gas max_cycles (snd (load jump_loop_program new)) = None.
Proof.
  intros Hpos.
  destruct jump_loop_loaded as (Hok & Hcy1 & Hs1 & Hs2).
  split; [exact Hok|].
  apply (run_enters_fixed_state
           (snd (load jump_loop_program new))
           (set_c (snd (load jump_loop_program new)) (mkTryte 34)));
    [exact Hpos | exact Hcy1 | | exact Hs1 | exact Hs2].
  rewrite cycles_set_c. exact Hcy1.
Qed.

Lemma run_jump_loop_diverges_witness :
  run 1000 1 (snd (load jump_loop_program new)) = None.
Proof.
  apply (run_jump_loop_diverges 1 1000). lia.
Defined.

(** * Further properties of the interpreter and of the compiler *)

Lemma value_Tryte_add (x y : Tryte) :
  value (Tryte_add x y) = (value x + value y) mod 59049.
Proof.
  unfold Tryte_add, mkTryte. cbn [value].
  change (MAX_VALUE + 1) with 59049. by rewrite Z.mod_mod.
Qed.

Lemma Tryte_eq (x y : Tryte) : value x = value y -> x = y.
Proof. destruct x, y. cbn [value]. by intros ->. Qed.

(** X1: a Tryte decomposes into exactly ten trits, least significant
    first; composing them again gives the Tryte back, and its value is the
    positional sum of the trits. *)
Theorem trits_round_trip (t : Tryte) :
  Tryte_wf t ->
  length (to_trits t) = 10%nat
  /\ from_trits (to_trits t) = t
  /\ value t = sum_enumerate 0 (to_trits t).
Proof.
  intros Hwf. split_and!.
  - apply to_trits_length.
  - by apply from_trits_to_trits.
  - unfold to_trits. unfold Tryte_wf, MAX_VALUE in Hwf.
    rewrite sum_to_trits_loop by lia.
    change (3 ^ Z.of_nat 10) with 59049. rewrite Z.mod_small; lia.
Qed.

Lemma trits_round_trip_witness :
  from_trits (to_trits (mkTryte 59048)) = mkTryte 59048.
Proof.
  destruct (trits_round_trip (mkTryte 59048) (mkTryte_wf 59048)) as (_ & H & _).
  exact H.
Defined.

(** X2: [from_trits] uses the first ten trits only: trits after the tenth
    do not change the result, and decomposing the result gives the first
    ten back. *)
Theorem from_trits_first_ten (l extra : list Trit) :
  length l = 10%nat ->
  from_trits (l ++ extra) = from_trits l
  /\ to_trits (from_trits (l ++ extra)) = l.
Proof.
  intros Hl.
  assert (H : from_trits (l ++ extra) = from_trits l).
  { unfold from_trits. rewrite take_app_length' by done.
    by rewrite take_ge by lia. }
  split; [exact H|]. rewrite H. by apply to_trits_from_trits.
Qed.

Lemma from_trits_first_ten_witness :
  to_trits (from_trits ([T1; T2; T0; T0; T1; T2; T2; T0; T1; T1] ++ [T2; T2]))
  = [T1; T2; T0; T0; T1; T2; T2; T0; T1; T1].
Proof.
  apply (from_trits_first_ten [T1; T2; T0; T0; T1; T2; T2; T0; T1; T1] [T2; T2]).
  reflexivity.
Defined.

(** X3: Tryte addition is addition modulo 59049: the sum is a valid Tryte,
    the operation is commutative and associative, and the zero Tryte is
    neutral on valid Trytes. *)
Theorem Tryte_add_laws (x y z : Tryte) :
  value (Tryte_add x y) = (value x + value y) mod 59049
  /\ Tryte_wf (Tryte_add x y)
  /\ Tryte_add x y = Tryte_add y x
  /\ Tryte_add (Tryte_add x y) z = Tryte_add x (Tryte_add y z)
  /\ (Tryte_wf x -> Tryte_add x (mkTryte 0) = x).
Proof.
  split_and!.
  - apply value_Tryte_add.
  - apply Tryte_add_wf.
  - apply Tryte_eq. rewrite !value_Tryte_add. by rewrite Z.add_comm.
  - apply Tryte_eq. rewrite !value_Tryte_add.
    rewrite Zplus_mod_idemp_l, Zplus_mod_idemp_r. by rewrite Z.add_assoc.
  - intros Hwf. apply Tryte_eq. rewrite value_Tryte_add.
    change (value (mkTryte 0)) with 0. unfold Tryte_wf, MAX_VALUE in Hwf.
    rewrite Z.add_0_r. apply Z.mod_small. lia.
Qed.

Lemma Tryte_add_laws_witness :
  Tryte_add (mkTryte 59048) (mkTryte 0) = mkTryte 59048.
Proof.
  destruct (Tryte_add_laws (mkTryte 59048) (mkTryte 0) (mkTryte 0))
    as (_ & _ & _ & _ & H).
  apply H, mkTryte_wf.
Defined.

(** X4: [crazy] acts trit by trit: the ten trits of [crazy x y] are the
    table entries for the pairs of trits of [x] and [y], and the result is
    a valid Tryte. *)
Theorem crazy_tritwise (x y : Tryte) :
  to_trits (crazy x y) = zip_with crazy_trit (to_trits x) (to_trits y)
  /\ Tryte_wf (crazy x y).
Proof.
  split; [|apply crazy_wf].
  unfold crazy. apply to_trits_from_trits.
  rewrite length_zip_with, !to_trits_length. reflexivity.
Qed.

Lemma to_trits_rotate_right (t : Tryte) :
  to_trits (rotate_right t) = rotate_trits (to_trits t).
Proof.
  unfold rotate_right. apply to_trits_from_trits.
  apply (rotate_trits_length (to_trits t)), to_trits_length.
Qed.

Lemma value_sum_trits (t : Tryte) :
  Tryte_wf t -> sum_enumerate 0 (to_trits t) = value t.
Proof.
  intros Hwf. unfold to_trits. unfold Tryte_wf, MAX_VALUE in Hwf.
  rewrite sum_to_trits_loop by lia.
  change (3 ^ Z.of_nat 10) with 59049. apply Z.mod_small; lia.
Qed.

(** X5: on values, [rotate_right] multiplies the low nine trits by three
    and moves the top trit to the units: [3 * (v mod 3^9) + v / 3^9]. *)
Theorem rotate_right_value (t : Tryte) :
  Tryte_wf t ->
  value (rotate_right t) = 3 * (value t mod 19683) + value t / 19683.
Proof.
  intros Hwf. pose proof (value_sum_trits t Hwf) as Hv.
  pose proof (to_trits_length t) as Hl.
  unfold rotate_right. fold (rotate_trits (to_trits t)).
  destruct (to_trits t) as [|a0 [|a1 [|a2 [|a3 [|a4 [|a5 [|a6 [|a7 [|a8 [|a9 [|]]]]]]]]]]];
    try discriminate Hl.
  cbn [rotate_trits List.last removelast app].
  unfold from_trits. cbn [take].
  rewrite !sum_enumerate_cons in Hv |- *. cbn [sum_enumerate] in Hv |- *.
  pose proof (Trit_value_bound a0). pose proof (Trit_value_bound a1).
  pose proof (Trit_value_bound a2). pose proof (Trit_value_bound a3).
  pose proof (Trit_value_bound a4). pose proof (Trit_value_bound a5).
  pose proof (Trit_value_bound a6). pose proof (Trit_value_bound a7).
  pose proof (Trit_value_bound a8). pose proof (Trit_value_bound a9).
  assert (Hq : value t / 19683 = Trit_value a9).
  { symmetry. apply Z.div_unique with (r := value t - 19683 * Trit_value a9); lia. }
  assert (Hr : value t mod 19683 = value t - 19683 * Trit_value a9).
  { symmetry. apply Z.mod_unique with (q := Trit_value a9); lia. }
  rewrite Hq, Hr. rewrite mkTryte_small; unfold MAX_VALUE; lia.
Qed.

Lemma rotate_right_value_witness :
  value (rotate_right (mkTryte 2))
  = 3 * (value (mkTryte 2) mod 19683) + value (mkTryte 2) / 19683.
Proof. apply (rotate_right_value (mkTryte 2)), mkTryte_wf. Defined.

Lemma rotate_trits_inj (l k : list Trit) :
  length l = 10%nat -> length k = 10%nat ->
  rotate_trits l = rotate_trits k -> l = k.
Proof.
  intros Hl Hk.
  do 11 (destruct l as [|? l]; try discriminate Hl).
  do 11 (destruct k as [|? k]; try discriminate Hk).
  cbn [rotate_trits List.last removelast app]. intros H.
  injection H as -> -> -> -> -> -> -> -> -> ->. reflexivity.
Qed.

(** X6: [rotate_right] is injective on valid Trytes (it permutes them). *)
Theorem rotate_right_injective (x y : Tryte) :
  Tryte_wf x -> Tryte_wf y -> rotate_right x = rotate_right y -> x = y.
Proof.
  intros Hx Hy H. apply (f_equal to_trits) in H.
  rewrite !to_trits_rotate_right in H.
  apply rotate_trits_inj in H; try apply to_trits_length.
  rewrite <- (from_trits_to_trits x Hx), <- (from_trits_to_trits y Hy).
  by rewrite H.
Qed.

Lemma rotate_right_injective_witness : from_int 59056 = mkTryte 7.
Proof.
  apply (rotate_right_injective (from_int 59056) (mkTryte 7));
    [apply mkTryte_wf | apply mkTryte_wf | reflexivity].
Defined.

(** ** The compiler's encoder against the decoder *)

Lemma encrypt_instruction_range (instr : string) (pos : Z) :
  33 <= Compiler.encrypt_instruction instr pos <= 126.
Proof.
  unfold Compiler.encrypt_instruction.
  destruct (Compiler.dict_get _ _) as [idx|];
    match goal with |- _ <= ?x mod 94 + 33 <= _ =>
      pose proof (Z.mod_pos_bound x 94) end; lia.
Qed.

Lemma decrypt_of_encrypt_index (idx pos : Z) :
  0 <= idx < 94 ->
  (((idx - pos) mod 94 + 33) - 33 + pos) mod 94 = idx.
Proof.
  intros H. replace ((idx - pos) mod 94 + 33 - 33 + pos)
    with ((idx - pos) mod 94 + pos) by lia.
  rewrite Zplus_mod_idemp_l. replace (idx - pos + pos) with idx by lia.
  apply Z.mod_small; lia.
Qed.

Lemma decrypt_at_index (cp pos idx : Z) :
  33 <= cp <= 126 ->
  (cp - 33 + pos) mod 94 = idx ->
  decrypt_instruction cp pos
  = if idx <? 8 then Ok (substring (Z.to_nat (idx mod 8)) 1 instructions)
    else Ok "nop"%string.
Proof.
  intros Hcp Hidx. unfold decrypt_instruction.
  rewrite code_point_valid by done. cbv zeta. rewrite Hidx. reflexivity.
Qed.

Lemma decrypt_encrypt_opcode (o : Opcode) (pos : Z) :
  decrypt_instruction (Compiler.encrypt_instruction (opcode_symbol o) pos) pos
  = Ok (opcode_symbol o).
Proof.
  destruct o; unfold Compiler.encrypt_instruction; cbn [opcode_symbol];
    match goal with
    | |- context [Compiler.dict_get ?m ?k] =>
        let v := eval vm_compute in (Compiler.dict_get m k) in
        change (Compiler.dict_get m k) with v
    end; cbv iota beta zeta;
    match goal with
    | |- decrypt_instruction ((?idx - pos) mod 94 + 33) pos = _ =>
        rewrite (decrypt_at_index _ pos idx);
          [reflexivity
          | pose proof (Z.mod_pos_bound (idx - pos) 94); lia
          | apply decrypt_of_encrypt_index; lia]
    end.
Qed.

(** X7: the compiler's [encrypt_instruction] and the interpreter's
    [decrypt_instruction] are inverse at every position: the code point
    stored for one of the eight opcode symbols lies in [33,126] and
    decodes, at the same position, to that symbol. *)
Theorem encrypt_decrypt_round_trip (o : Opcode) (pos : Z) :
  33 <= Compiler.encrypt_instruction (opcode_symbol o) pos <= 126
  /\ decrypt_instruction (Compiler.encrypt_instruction (opcode_symbol o) pos) pos
     = Ok (opcode_symbol o).
Proof.
  split; [apply encrypt_instruction_range | apply decrypt_encrypt_opcode].
Qed.

(** X8: [encrypt_instruction] never leaves [33,126], whatever the symbol
    and the position (negative ones too); a symbol that is not in its
    table is encrypted as the no-op [o]. *)
Theorem encrypt_unknown_is_nop (instr : string) (pos : Z) :
  33 <= Compiler.encrypt_instruction instr pos <= 126
  /\ (Compiler.dict_get Compiler.instr_map instr = None ->
      decrypt_instruction (Compiler.encrypt_instruction instr pos) pos
      = Ok "o"%string).
Proof.
  split; [apply encrypt_instruction_range|].
  intros Hn. unfold Compiler.encrypt_instruction. rewrite Hn.
  rewrite (decrypt_at_index _ pos 7);
    [reflexivity
    | pose proof (Z.mod_pos_bound (7 - pos) 94); lia
    | apply decrypt_of_encrypt_index; lia].
Qed.

Lemma encrypt_unknown_is_nop_witness :
  decrypt_instruction (Compiler.encrypt_instruction "nop" 5) 5 = Ok "o"%string.
Proof.
  destruct (encrypt_unknown_is_nop "nop" 5) as [_ H]. apply H. reflexivity.
Defined.

(** X9: the decoder depends on the position only modulo 94. *)
Theorem decrypt_instruction_period (cp pos k : Z) :
  decrypt_instruction cp (pos + 94 * k) = decrypt_instruction cp pos.
Proof.
  unfold decrypt_instruction.
  replace (cp - 33 + (pos + 94 * k)) with (cp - 33 + pos + k * 94) by lia.
  by rewrite Z_mod_plus_full.
Qed.

(** ** Checked and wrapped memory access *)

Lemma getitem_setitem_eq (m : SafeMemory) (i : Z) (v : Tryte) :
  0 <= i < Z.of_nat (length m) -> getitem (setitem m i v) i = v.
Proof.
  intros H. unfold getitem, setitem.
  rewrite list_lookup_insert_eq by lia. reflexivity.
Qed.

Lemma getitem_setitem_ne (m : SafeMemory) (i j : Z) (v : Tryte) :
  0 <= i -> 0 <= j -> i <> j -> getitem (setitem m i v) j = getitem m j.
Proof.
  intros Hi Hj Hne. unfold getitem, setitem.
  rewrite list_lookup_insert_ne by lia. reflexivity.
Qed.

(** X10: checked memory access: inside [0, 59049) a write succeeds, a read
    of the same address returns the written value, every other address
    reads as before and the length is kept; outside, the write fails
    without touching memory and the read fails. *)
Theorem write_then_read (m : SafeMemory) (addr : Z) (v : Tryte) :
  length m = Z.to_nat SIZE ->
  (0 <= addr < SIZE ->
   fst (write m addr v) = Ok tt
   /\ read (snd (write m addr v)) addr = Ok v
   /\ length (snd (write m addr v)) = length m
   /\ forall other : Z,
        other <> addr -> read (snd (write m addr v)) other = read m other)
  /\ (~ 0 <= addr < SIZE ->
      write m addr v = (Err (WriteOutOfBounds addr), m)
      /\ read m addr = Err (ReadOutOfBounds addr)).
Proof.
  intros Hm. pose proof SIZE_nat as HS. split.
  - intros Hin. unfold write.
    destruct (0 <=? addr) eqn:E1; [|lia].
    destruct (addr <? SIZE) eqn:E2; [|lia]. cbn [andb fst snd].
    split; [reflexivity|]. split; [|split].
    + rewrite read_in_range by lia. apply (f_equal Ok).
      apply getitem_setitem_eq. lia.
    + unfold setitem. apply length_insert.
    + intros other Hne. unfold read.
      destruct ((0 <=? other) && (other <? SIZE)) eqn:E; [|reflexivity].
      apply (f_equal Ok). apply getitem_setitem_ne; lia.
  - intros Hout. unfold write, read.
    destruct (0 <=? addr) eqn:E1; destruct (addr <? SIZE) eqn:E2;
      cbn [andb]; try (split; reflexivity). lia.
Qed.

Lemma write_then_read_witness :
  read (snd (write (memory new) 59048 (mkTryte 5))) 59048 = Ok (mkTryte 5).
Proof.
  destruct (write_then_read (memory new) 59048 (mkTryte 5) new_memory_length)
    as [H _].
  destruct H as (_ & H & _); [unfold SIZE; lia | exact H].
Defined.

(** X11: wrapped memory access: addresses that differ by a multiple of
    59049 name the same cell, a wrapped write is read back at any of them,
    cells at other residues are untouched, the length is kept, and the
    wrapped read agrees with the checked read at the reduced address. *)
Theorem wrapped_access (m : SafeMemory) (addr k : Z) (v : Tryte) :
  length m = Z.to_nat SIZE ->
  read_unsafe m (addr + k * SIZE) = read_unsafe m addr
  /\ read_unsafe (write_unsafe m addr v) (addr + k * SIZE) = v
  /\ length (write_unsafe m addr v) = length m
  /\ read m (addr mod SIZE) = Ok (read_unsafe m addr)
  /\ forall other : Z,
       other mod SIZE <> addr mod SIZE ->
       read_unsafe (write_unsafe m addr v) other = read_unsafe m other.
Proof.
  intros Hm. pose proof SIZE_nat as HS.
  assert (Hb : forall x, 0 <= x mod SIZE < SIZE).
  { intros x. apply Z.mod_pos_bound. unfold SIZE. lia. }
  assert (Hk : (addr + k * SIZE) mod SIZE = addr mod SIZE)
    by apply Z_mod_plus_full.
  split; [|split; [|split; [|split]]].
  - unfold read_unsafe. by rewrite Hk.
  - unfold read_unsafe, write_unsafe. rewrite Hk.
    apply getitem_setitem_eq. pose proof (Hb addr). lia.
  - unfold write_unsafe, setitem. apply length_insert.
  - rewrite read_in_range by apply Hb. reflexivity.
  - intros other Hne. unfold read_unsafe, write_unsafe.
    pose proof (Hb addr). pose proof (Hb other).
    apply getitem_setitem_ne; lia.
Qed.

Lemma wrapped_access_witness :
  read_unsafe (write_unsafe (memory new) (-1) (mkTryte 5)) (-1 + 1 * SIZE)
  = mkTryte 5.
Proof.
  destruct (wrapped_access (memory new) (-1) 1 (mkTryte 5) new_memory_length)
    as (_ & H & _).
  exact H.
Defined.

(** ** load: when it succeeds, and what it depends on *)

(** X12: [load] succeeds exactly when the stripped text fits in memory and
    has only code points in [33,126]; a text that is too long fails with
    the size error whatever its characters, and one that fits fails at its
    first character outside the range. *)
Theorem load_result_cases (program : list Z) (s : VMState) :
  state_wf s ->
  let len := Z.of_nat (length (strip program)) in
  (fst (load program s) = Ok tt
     <-> len <= SIZE /\ Forall valid_char (strip program))
  /\ (SIZE < len -> fst (load program s) = Err (ProgramTooLarge len))
  /\ (len <= SIZE -> ~ Forall valid_char (strip program) ->
      exists (i : Z) (ch : Z),
        fst (load program s) = Err (InvalidCharacter i ch)
        /\ strip program !! Z.to_nat i = Some ch /\ ~ valid_char ch
        /\ Forall valid_char (take (Z.to_nat i) (strip program))).
Proof.
  intros Hwf len. pose proof Hwf as (_ & _ & _ & [Hl _] & _).
  assert (Hbig : SIZE < len -> fst (load program s) = Err (ProgramTooLarge len)).
  { intros H. unfold len. by rewrite load_too_large. }
  assert (Hinv : len <= SIZE -> ~ Forall valid_char (strip program) ->
      exists (i : Z) (ch : Z),
        fst (load program s) = Err (InvalidCharacter i ch)
        /\ strip program !! Z.to_nat i = Some ch /\ ~ valid_char ch
        /\ Forall valid_char (take (Z.to_nat i) (strip program))).
  { intros Hfit Hnv.
    destruct (valid_or_first_invalid (strip program))
      as [Hv | (pre & ch & post & Hs & Hpre & Hch)]; [contradiction|].
    exists (Z.of_nat (length pre)), ch.
    rewrite (load_invalid program s pre ch post) by assumption.
    rewrite Nat2Z.id. rewrite Hs. split; [reflexivity|].
    split; [by apply list_lookup_middle|]. split; [assumption|].
    by rewrite take_app_length. }
  split; [|split; [exact Hbig | exact Hinv]].
  split.
  - intros Hok.
    destruct (Z_lt_dec SIZE len) as [Hgt|Hle].
    { rewrite (Hbig Hgt) in Hok. discriminate Hok. }
    split; [lia|].
    destruct (valid_or_first_invalid (strip program))
      as [Hv | (pre & ch & post & Hs & Hpre & Hch)]; [exact Hv|].
    rewrite (load_invalid program s pre ch post) in Hok
      by (assumption || (unfold len in Hle; lia)).
    discriminate Hok.
  - intros [Hfit Hv]. by apply load_ok.
Qed.

Lemma load_result_cases_witness :
  fst (load halt_program new) = Ok tt.
Proof.
  destruct (load_result_cases halt_program new new_wf) as [H _].
  apply H. apply halt_program_valid.
Defined.

Lemma strip_app (p q : list Z) : strip (p ++ q) = strip p ++ strip q.
Proof. unfold strip. apply List.filter_app. Qed.

(** X13: [load] sees the text only through its non-whitespace characters:
    two texts with the same stripped form load alike, so inserting a
    whitespace character anywhere, or stripping the text first, changes
    nothing. *)
Theorem load_ignores_whitespace :
  (forall (p q : list Z) (s : VMState),
      strip p = strip q -> load p s = load q s)
  /\ (forall (p q : list Z) (ws : Z) (s : VMState),
         isspace ws = true -> load (p ++ ws :: q) s = load (p ++ q) s)
  /\ (forall (p : list Z) (s : VMState), load (strip p) s = load p s).
Proof.
  assert (H1 : forall (p q : list Z) (s : VMState),
             strip p = strip q -> load p s = load q s).
  { intros p q s H. unfold load. fold (strip p). fold (strip q). by rewrite H. }
  split; [exact H1|]. split.
  - intros p q ws s Hws. apply H1.
    rewrite !strip_app. f_equal. unfold strip. cbn [List.filter].
    by rewrite Hws.
  - intros p s. apply H1. unfold strip.
    induction p as [|x p IH]; [reflexivity|].
    cbn [List.filter]. destruct (negb (isspace x)) eqn:E.
    + cbn [List.filter]. by rewrite E, IH.
    + exact IH.
Qed.

Lemma load_ignores_whitespace_witness :
  load ([39] ++ 32 :: []) new = load ([39] ++ []) new.
Proof.
  destruct load_ignores_whitespace as (_ & H & _).
  apply (H [39] [] 32 new). reflexivity.
Defined.

(** X14: for a valid program of at least two characters the memory after
    [load] does not depend on the state before it: the whole memory is
    determined by the text. *)
Theorem load_memory_independent_of_past (program : list Z) (s1 s2 : VMState) :
  state_wf s1 -> state_wf s2 ->
  2 <= Z.of_nat (length (strip program)) <= SIZE ->
  Forall valid_char (strip program) ->
  memory (snd (load program s1)) = memory (snd (load program s2)).
Proof.
  intros (_ & _ & _ & [Hl1 _] & _) (_ & _ & _ & [Hl2 _] & _) [H2 Hfit] Hv.
  rewrite !load_valid by assumption. cbn [snd memory set_memory].
  unfold loaded_memory. cbv zeta.
  set (code := strip program) in *.
  pose proof SIZE_nat as HS.
  destruct (lookup_lt_is_Some_2 code (length code - 1)) as [x1 Hx1]; [lia|].
  destruct (lookup_lt_is_Some_2 code (length code - 2)) as [x2 Hx2]; [lia|].
  replace (Z.of_nat (length code) - 1) with (Z.of_nat (length code - 1)) by lia.
  replace (Z.of_nat (length code) - 2) with (Z.of_nat (length code - 2)) by lia.
  rewrite (mid_text code (memory s1) Hfit Hl1 _ x1 Hx1).
  rewrite (mid_text code (memory s1) Hfit Hl1 _ x2 Hx2).
  rewrite (mid_text code (memory s2) Hfit Hl2 _ x1 Hx1).
  rewrite (mid_text code (memory s2) Hfit Hl2 _ x2 Hx2).
  reflexivity.
Qed.

Lemma load_memory_independent_of_past_witness :
  memory (snd (load jump_loop_program new))
  = memory (snd (load jump_loop_program (set_halted new true))).
Proof.
  destruct jump_loop_program_valid as (Hfit & Hv & _).
  assert (Hlen : Z.of_nat (length (strip jump_loop_program)) = 35)
    by (vm_compute; reflexivity).
  apply (load_memory_independent_of_past jump_loop_program new
           (set_halted new true) new_wf new_wf); [lia | exact Hv].
Defined.

(** X15: every reachable state has a memory of exactly 59049 cells, each a
    Tryte in range, registers in range and a non-negative cycle counter. *)
Theorem reachable_state_invariant (s : VMState) :
  reachable s ->
  Z.of_nat (length (memory s)) = 59049
  /\ Forall Tryte_wf (memory s)
  /\ Tryte_wf (a s) /\ Tryte_wf (c s) /\ Tryte_wf (d s)
  /\ 0 <= cycles s.
Proof.
  intros Hr. destruct (reachable_wf s Hr) as (Ha & Hc & Hd & [Hl Hf] & Hcy).
  split; [rewrite Hl; exact SIZE_nat|]. split; [exact Hf|]. split; [exact Ha|].
  split; [exact Hc|]. split; [exact Hd | exact Hcy].
Qed.

Lemma reachable_state_invariant_witness :
  Z.of_nat (length (memory (snd (step new)))) = 59049.
Proof.
  destruct (reachable_state_invariant (snd (step new))
              (reachable_step new reachable_new)) as [H _].
  exact H.
Defined.

(** ** step: what one step can and cannot change *)

Ltac step_cases :=
  unfold step, increment;
  repeat match goal with
    | |- context [if halted ?s then _ else _] => destruct (halted s) eqn:?
    | |- context [match read ?m ?x with _ => _ end] =>
        destruct (read m x) eqn:?
    | |- context [match decrypt_instruction ?x ?y with _ => _ end] =>
        destruct (decrypt_instruction x y) eqn:?
    | |- context [if String.eqb ?x ?y then _ else _] =>
        destruct (String.eqb x y) eqn:?
    end;
  cbn [fst snd a c d memory output halted cycles
       set_a set_c set_d set_memory set_output set_halted].

Lemma step_error_state (s : VMState) (e : StepError) :
  fst (step s) = Err e -> snd (step s) = s.
Proof. step_cases; intros H; try discriminate H; reflexivity. Qed.

Lemma step_stop_halted (s : VMState) :
  fst (step s) = Ok false <-> halted (snd (step s)) = true.
Proof. step_cases; split; intros H; congruence. Qed.

Lemma step_counts (s : VMState) :
  cycles s <= cycles (snd (step s)) <= cycles s + 1
  /\ (output (snd (step s)) = output s
      \/ output (snd (step s)) = output s ++ [chr (value (a s) mod 256)]
         /\ cycles (snd (step s)) = cycles s + 1).
Proof.
  step_cases; (split; [lia|]);
    first [left; reflexivity | right; split; reflexivity].
Qed.

(** X16: a step that returns an error leaves the machine exactly as it
    was, and only a machine that has not halted can return one. *)
Theorem step_error_leaves_state (s : VMState) (e : StepError) :
  fst (step s) = Err e -> snd (step s) = s /\ halted s = false.
Proof.
  intros H. split; [by apply (step_error_state s e)|].
  destruct (halted s) eqn:Hh; [|reflexivity].
  rewrite step_halted in H by exact Hh. discriminate H.
Qed.

(** A state whose code pointer is at a cell holding 0: the fetched value is
    not a printable code point, so [step] fails to decode. *)
Lemma step_new_fails :
  fst (step new) = Err (FailedToDecrypt (InvalidCodePoint 0)).
Proof.
  rewrite (step_decode_error new (InvalidCodePoint 0) new_wf eq_refl);
    [reflexivity|].
  unfold fetched_cell. cbn [new c]. rewrite value_mkTryte_0.
  rewrite (getitem_lookup _ 0%nat (mkTryte 0)); [reflexivity|].
  apply new_memory_cell. pose proof SIZE_nat. unfold SIZE in *. lia.
Qed.

Lemma step_error_leaves_state_witness :
  snd (step new) = new /\ halted new = false.
Proof.
  apply (step_error_leaves_state new (FailedToDecrypt (InvalidCodePoint 0))).
  exact step_new_fails.
Defined.

(** X17: [step] returns [Ok False] exactly when it leaves the halted flag
    set, and the flag, once set, stays set. *)
Theorem step_stops_iff_halted (s : VMState) :
  (fst (step s) = Ok false <-> halted (snd (step s)) = true)
  /\ (halted s = true -> halted (snd (step s)) = true).
Proof.
  split; [apply step_stop_halted|].
  intros H. by rewrite step_halted.
Qed.

Lemma step_stops_iff_halted_witness :
  halted (snd (step (set_halted new true))) = true.
Proof.
  destruct (step_stops_iff_halted (set_halted new true)) as [_ H].
  apply H. reflexivity.
Defined.

(** X18: one step counts at most one cycle and never counts down; it
    leaves the output as it was or appends one character, the
    accumulator's value modulo 256, and then it counts the cycle. *)
Theorem step_cycles_and_output (s : VMState) :
  cycles s <= cycles (snd (step s)) <= cycles s + 1
  /\ (output (snd (step s)) = output s
      \/ output (snd (step s)) = output s ++ [chr (value (a s) mod 256)]
         /\ cycles (snd (step s)) = cycles s + 1).
Proof. apply step_counts. Qed.

(** X19: one step keeps the length of the memory and changes no cell other
    than the one at the data pointer; when it does change memory, the
    accumulator holds the value written and the cycle is counted. *)
Theorem step_memory_frame (s : VMState) :
  state_wf s ->
  length (memory (snd (step s))) = length (memory s)
  /\ (forall k : Z,
         0 <= k < SIZE -> k <> value (d s) ->
         getitem (memory (snd (step s))) k = getitem (memory s) k)
  /\ (memory (snd (step s)) <> memory s ->
      a (snd (step s)) = getitem (memory (snd (step s))) (value (d s))
      /\ cycles (snd (step s)) = cycles s + 1).
Proof.
  intros (_ & _ & Hd & [Hl _] & _).
  pose proof SIZE_nat as HS.
  assert (Hdr : 0 <= value (d s) < SIZE).
  { unfold Tryte_wf, MAX_VALUE in Hd. unfold SIZE. lia. }
  assert (Hw : forall v,
    length (write_unsafe (memory s) (value (d s)) v) = length (memory s)
    /\ (forall k, 0 <= k < SIZE -> k <> value (d s) ->
         getitem (write_unsafe (memory s) (value (d s)) v) k
         = getitem (memory s) k)
    /\ v = getitem (write_unsafe (memory s) (value (d s)) v) (value (d s))).
  { intros v. unfold write_unsafe. rewrite Z.mod_small by exact Hdr.
    split; [apply length_insert|]. split.
    - intros k Hk Hne. apply getitem_setitem_ne; lia.
    - symmetry. apply getitem_setitem_eq. lia. }
  step_cases;
    try (split; [reflexivity|]; split; [reflexivity|];
         intros Hne; contradiction).
  - destruct (Hw (rotate_right value1)) as (H1 & H2 & H3).
    split; [exact H1|]. split; [exact H2|]. intros _. split; [exact H3|reflexivity].
  - destruct (Hw (crazy value1 (a s))) as (H1 & H2 & H3).
    split; [exact H1|]. split; [exact H2|]. intros _. split; [exact H3|reflexivity].
Qed.

Lemma step_memory_frame_witness :
  length (memory (snd (step new))) = length (memory new).
Proof.
  destruct (step_memory_frame new new_wf) as [H _]. exact H.
Defined.

(** ** run: what a result tells about the final state *)

Lemma run_sound (gas : nat) :
  forall (max_cycles : Z) (s s' : VMState) (r : Result string RunError),
    run gas max_cycles s = Some (r, s') ->
    match r with
    | Ok out =>
        halted s' = true /\ cycles s' < max_cycles /\ out = get_output s'
    | Err (ExecutionLimitExceeded m) =>
        m = max_cycles /\ max_cycles <= cycles s'
    | Err (ExecutionError k e) =>
        k = cycles s' /\ fst (step s') = Err e
        /\ halted s' = false /\ cycles s' < max_cycles
    end.
Proof.
  induction gas as [|gas IH]; intros max_cycles s s' r Hrun; [discriminate Hrun|].
  cbn [run] in Hrun.
  destruct (cycles s <? max_cycles) eqn:Hlt.
  - destruct (step s) as [[[|]|e] s1] eqn:Hstep.
    + by apply (IH max_cycles s1).
    + assert (Hh : halted s1 = true).
      { apply (f_equal snd) in Hstep as Hs1. cbn [snd] in Hs1. subst s1.
        apply step_stop_halted. by rewrite Hstep. }
      unfold run_exit in Hrun.
      destruct (cycles s1 >=? max_cycles) eqn:Hge;
        injection Hrun as <- <-; [lia|].
      split; [exact Hh|]. split; [lia | reflexivity].
    + injection Hrun as <- <-.
      assert (Hs1 : s1 = s).
      { apply (f_equal snd) in Hstep as Hs1. cbn [snd] in Hs1. subst s1.
        apply (step_error_state s e). by rewrite Hstep. }
      subst s1. split; [reflexivity|]. split; [by rewrite Hstep|].
      split; [|lia].
      destruct (halted s) eqn:Hh; [|reflexivity].
      rewrite step_halted in Hstep by exact Hh. discriminate Hstep.
  - unfold run_exit in Hrun.
    destruct (cycles s >=? max_cycles) eqn:Hge;
      injection Hrun as <- <-; lia.
Qed.

(** X20: what a result of [run] tells: success means the machine has
    halted below the fuel limit and the string is its output; limit
    exceeded means the counter has reached the limit; an execution error
    reports the counter of the state it leaves, on which [step] fails with
    the reported error. *)
Theorem run_result_sound
    (gas : nat) (max_cycles : Z) (s s' : VMState) (r : Result string RunError) :
  run gas max_cycles s = Some (r, s') ->
  match r with
  | Ok out =>
      halted s' = true /\ cycles s' < max_cycles /\ out = get_output s'
  | Err (ExecutionLimitExceeded m) =>
      m = max_cycles /\ max_cycles <= cycles s'
  | Err (ExecutionError k e) =>
      k = cycles s' /\ fst (step s') = Err e
      /\ halted s' = false /\ cycles s' < max_cycles
  end.
Proof. apply run_sound. Qed.

Lemma run_new_fails :
  run 1 10 new
  = Some (Err (ExecutionError 0 (FailedToDecrypt (InvalidCodePoint 0))), new).
Proof.
  pose proof step_new_fails as Hf.
  pose proof (step_error_state new _ Hf) as Hs.
  cbn [run]. change (cycles new <? 10) with true. cbv iota.
  destruct (step new) as [r s1]. cbn [fst snd] in Hf, Hs. subst r s1.
  reflexivity.
Qed.

Lemma run_result_sound_witness :
  0 = cycles new
  /\ fst (step new) = Err (FailedToDecrypt (InvalidCodePoint 0))
  /\ halted new = false /\ cycles new < 10.
Proof.
  exact (run_result_sound 1 10 new new _ run_new_fails).
Defined.

Lemma run_grows (gas : nat) :
  forall (max_cycles : Z) (s s' : VMState) (r : Result string RunError),
    run gas max_cycles s = Some (r, s') ->
    cycles s <= cycles s'
    /\ output s `prefix_of` output s'
    /\ (reachable s -> reachable s').
Proof.
  induction gas as [|gas IH]; intros max_cycles s s' r Hrun; [discriminate Hrun|].
  cbn [run] in Hrun.
  assert (Hstep1 : cycles s <= cycles (snd (step s))
                   /\ output s `prefix_of` output (snd (step s))
                   /\ (reachable s -> reachable (snd (step s)))).
  { destruct (step_counts s) as [Hc [Ho | [Ho _]]].
    - split; [lia|]. split; [by rewrite Ho | apply reachable_step].
    - split; [lia|]. split; [rewrite Ho; by apply prefix_app_r | apply reachable_step]. }
  assert (Hrefl : cycles s <= cycles s /\ output s `prefix_of` output s
                  /\ (reachable s -> reachable s)).
  { split; [lia|]. split; [reflexivity | tauto]. }
  destruct (cycles s <? max_cycles).
  - destruct (step s) as [[[|]|e] s1] eqn:Hstep; cbn [snd] in Hstep1.
    + destruct (IH _ _ _ _ Hrun) as (H1 & H2 & H3).
      destruct Hstep1 as (G1 & G2 & G3).
      split; [lia|]. split; [by etrans | tauto].
    + unfold run_exit in Hrun.
      destruct (_ >=? _); injection Hrun as <- <-; exact Hstep1.
    + injection Hrun as <- <-. exact Hstep1.
  - unfold run_exit in Hrun.
    destruct (_ >=? _); injection Hrun as <- <-; exact Hrefl.
Qed.

(** X21: [run] never lowers the cycle counter, only appends to the output,
    and stays within the reachable states. *)
Theorem run_only_grows
    (gas : nat) (max_cycles : Z) (s s' : VMState) (r : Result string RunError) :
  run gas max_cycles s = Some (r, s') ->
  cycles s <= cycles s'
  /\ output s `prefix_of` output s'
  /\ (reachable s -> reachable s').
Proof. apply run_grows. Qed.

Lemma run_only_grows_witness :
  cycles new <= cycles new
  /\ output new `prefix_of` output new
  /\ (reachable new -> reachable new).
Proof.
  exact (run_only_grows 1 10 new new _ run_new_fails).
Defined.

(** X22: [run] on a machine that has already halted performs no
    instruction: it returns the output when the counter is below the limit
    and the limit-exceeded error otherwise, although the machine has
    halted. *)
Theorem run_on_halted (gas : nat) (max_cycles : Z) (s : VMState) :
  halted s = true ->
  run (S gas) max_cycles s
  = Some (if cycles s <? max_cycles
          then Ok (get_output s)
          else Err (ExecutionLimitExceeded max_cycles),
          s).
Proof.
  intros Hh. cbn [run]. rewrite step_halted by exact Hh.
  destruct (cycles s <? max_cycles) eqn:E.
  - rewrite run_exit_below by lia. reflexivity.
  - rewrite run_exit_reached by lia. reflexivity.
Qed.

Lemma run_on_halted_witness :
  run 1 0 (set_halted new true)
  = Some (if cycles (set_halted new true) <? 0
          then Ok (get_output (set_halted new true))
          else Err (ExecutionLimitExceeded 0),
          set_halted new true).
Proof. apply (run_on_halted 0 0 (set_halted new true)). reflexivity. Defined.

(** ** The compiler: what compile emits *)

Lemma encode_from_cons (n : nat) (sym : string) (syms : list string) :
  encode_from n (sym :: syms)
  = Compiler.encrypt_instruction sym (Z.of_nat n) :: encode_from (S n) syms.
Proof.
  unfold encode_from. cbn [imap]. rewrite Nat.add_0_r. f_equal.
  apply imap_ext. intros k x _. cbn. f_equal. lia.
Qed.

Lemma encode_from_length (n : nat) (syms : list string) :
  length (encode_from n syms) = length syms.
Proof. unfold encode_from. apply length_imap. Qed.

Lemma encode_from_lookup (n k : nat) (syms : list string) (sym : string) :
  syms !! k = Some sym ->
  encode_from n syms !! k
  = Some (Compiler.encrypt_instruction sym (Z.of_nat (n + k))).
Proof.
  intros H. unfold encode_from. rewrite list_lookup_imap, H. reflexivity.
Qed.

Lemma encode_from_valid (n : nat) (syms : list string) :
  Forall valid_char (encode_from n syms).
Proof.
  revert n. induction syms as [|sym syms IH]; intros n; [constructor|].
  rewrite encode_from_cons. constructor; [|apply IH].
  apply encrypt_instruction_range.
Qed.

Lemma filter_valid (l : list Z) :
  Forall valid_char l ->
  List.filter (fun c => (33 <=? c) && (c <=? 126)) l = l.
Proof.
  induction 1 as [|x l Hx _ IH]; [reflexivity|].
  cbn [List.filter]. unfold valid_char in Hx.
  destruct (33 <=? x) eqn:E1; [|lia]. destruct (x <=? 126) eqn:E2; [|lia].
  cbn [andb]. by rewrite IH.
Qed.

Lemma strip_valid (l : list Z) : Forall valid_char l -> strip l = l.
Proof.
  induction 1 as [|x l Hx _ IH]; [reflexivity|].
  unfold strip in *. cbn [List.filter].
  rewrite isspace_valid_char by exact Hx. cbn [negb]. by rewrite IH.
Qed.

Lemma emitted_cons (instr : Compiler.Instruction) (rest : list Compiler.Instruction) :
  emitted (instr :: rest)
  = match emitted_symbol instr with
    | Some sym => sym :: emitted rest
    | None => emitted rest
    end.
Proof. reflexivity. Qed.

Lemma lookup_0_None {A : Type} (l : list A) : l !! 0%nat = None <-> l = [].
Proof. destruct l; split; intros H; try discriminate H; reflexivity. Qed.

Lemma compile_const_returns
      (str_mod : list Z -> Z -> option (list Z)) (v : Compiler.PyVal) (l : list Z) :
  Compiler.compile_const str_mod v = Some l -> l = [].
Proof.
  unfold Compiler.compile_const. destruct v as [n|s].
  - intros H. by injection H as <-.
  - destruct (str_mod s 59049) as [formatted|]; [|discriminate].
    destruct (str_mod formatted _); [|discriminate].
    intros H. by injection H as <-.
Qed.

Lemma compile_const_raises
      (str_mod : list Z -> Z -> option (list Z)) (v : Compiler.PyVal) :
  Compiler.compile_const str_mod v = None <-> const_argument_raises str_mod v.
Proof.
  unfold Compiler.compile_const, const_argument_raises.
  change (MAX_VALUE + 1) with 59049. destruct v as [n|s].
  - split; [discriminate | intros (s & H & _); discriminate H].
  - destruct (str_mod s 59049) as [formatted|] eqn:E1.
    + destruct (str_mod formatted 59049) eqn:E2.
      * split; [discriminate|]. intros (s' & Hs & [H|(f & H1 & H2)]).
        -- injection Hs as <-. congruence.
        -- injection Hs as <-. congruence.
      * split; [|reflexivity]. intros _. exists s. split; [reflexivity|].
        right. exists formatted. by split.
    + split; [|reflexivity]. intros _. exists s. split; [reflexivity|].
      left. exact E1.
Qed.

Lemma output_char_ord (instr : Compiler.Instruction) :
  Compiler.op instr = Compiler.OUTPUT ->
  output_char instr
  = match Compiler.args instr !! 0%nat with
    | Some ch => Compiler.ord ch
    | None => None
    end.
Proof.
  intros E. unfold output_char, Compiler.ord. rewrite E.
  destruct (Compiler.args instr !! 0%nat) as [[n|[|cp [|cp' s]]]|]; reflexivity.
Qed.

Lemma compile_output_char_returns
      (self : Compiler.MalbolgeCodeGen) (ch : Compiler.PyVal) :
  Compiler.compile_output_char self ch
  = match Compiler.ord ch with
    | Some _ =>
        Some [Compiler.encrypt_instruction "<"
                (Z.of_nat (length (Compiler.code self)))]
    | None => None
    end.
Proof.
  unfold Compiler.compile_output_char. destruct (Compiler.ord ch); [|reflexivity].
  cbn [length app]. by rewrite Nat.add_0_r.
Qed.

Lemma compile_loop_code
      (str_mod : list Z -> Z -> option (list Z))
      (instrs : list Compiler.Instruction) :
  forall self self' : Compiler.MalbolgeCodeGen,
    Compiler.compile_loop str_mod instrs self = Some self' ->
    Compiler.code self'
    = Compiler.code self
        ++ encode_from (length (Compiler.code self)) (emitted instrs).
Proof.
  induction instrs as [|instr rest IH]; intros self self' H.
  - injection H as <-. by rewrite app_nil_r.
  - cbn [Compiler.compile_loop] in H. rewrite emitted_cons.
    unfold emitted_symbol.
    destruct (Compiler.op instr) eqn:E.
    + destruct (Compiler.args instr !! 0%nat) as [v|]; [|discriminate H].
      destruct (Compiler.compile_const str_mod v) as [l|] eqn:Ec;
        [|discriminate H].
      apply compile_const_returns in Ec. subst l.
      apply IH in H. rewrite H. unfold Compiler.extend.
      cbn [Compiler.code]. by rewrite app_nil_r.
    + by apply IH.
    + by apply IH.
    + by apply IH.
    + destruct (Compiler.args instr !! 0%nat) as [ch|]; [|discriminate H].
      rewrite compile_output_char_returns in H.
      destruct (Compiler.ord ch); [|discriminate H].
      apply IH in H. rewrite H. unfold Compiler.extend.
      cbn [Compiler.code].
      rewrite encode_from_cons, <- app_assoc, length_app. cbn [length app].
      by rewrite Nat.add_1_r.
    + apply IH in H. rewrite H.
      unfold Compiler.extend, Compiler.compile_halt.
      cbn [Compiler.code].
      rewrite encode_from_cons, <- app_assoc, length_app. cbn [length app].
      by rewrite Nat.add_1_r.
Qed.

Lemma compile_loop_raises
      (str_mod : list Z -> Z -> option (list Z))
      (instrs : list Compiler.Instruction) :
  forall self : Compiler.MalbolgeCodeGen,
    Compiler.compile_loop str_mod instrs self = None
    <-> Exists (raises_on_argument str_mod) instrs.
Proof.
  induction instrs as [|instr rest IH]; intros self.
  - split; [discriminate | intros H; inversion H].
  - cbn [Compiler.compile_loop]. rewrite Exists_cons.
    unfold raises_on_argument at 1.
    destruct (Compiler.op instr) eqn:E.
    + destruct (Compiler.args instr !! 0%nat) as [v|] eqn:Ea.
      * destruct (Compiler.compile_const str_mod v) as [l|] eqn:Ec.
        -- rewrite IH. split; [tauto|].
           intros [[H|(v' & Hv' & Hr)]|H]; [| |exact H].
           ++ apply lookup_0_None in H. congruence.
           ++ assert (v' = v) by congruence. subst v'.
              apply compile_const_raises in Hr. congruence.
        -- split; [|reflexivity]. intros _. left. right. exists v.
           split; [reflexivity | by apply compile_const_raises].
      * split; [|reflexivity]. intros _. left. left. by apply lookup_0_None.
    + rewrite IH. tauto.
    + rewrite IH. tauto.
    + rewrite IH. tauto.
    + rewrite (output_char_ord instr E).
      destruct (Compiler.args instr !! 0%nat) as [ch|] eqn:Ea.
      * rewrite compile_output_char_returns.
        destruct (Compiler.ord ch) as [cp|].
        -- rewrite IH. split; [tauto|]. intros [H|H]; [discriminate H | exact H].
        -- split; [|reflexivity]. intros _. by left.
      * split; [|reflexivity]. intros _. by left.
    + rewrite IH. tauto.
Qed.

Lemma compile_text
      (str_mod : list Z -> Z -> option (list Z))
      (program : Compiler.Program) (text : list Z) :
  Compiler.compile str_mod program = Some (Ok text) ->
  text = encode_from 0 (emitted (Compiler.instructions program)).
Proof.
  unfold Compiler.compile.
  destruct (Compiler.compile_loop _ _ _) as [self|] eqn:E; [|discriminate].
  intros H. injection H as <-.
  apply compile_loop_code in E. rewrite E. cbn [Compiler.init Compiler.code app length].
  apply filter_valid, encode_from_valid.
Qed.

(** X23: on argument tuples of ints and strings, [compile] raises exactly
    when some instruction makes it: a CONST or an OUTPUT whose tuple is
    empty, an OUTPUT whose first argument is not a string of length 1 (an
    int, the empty string, a longer string: [ord] rejects it), a CONST whose
    first argument is a string that the string formatting of
    [value % 59049] or of [Tryte.__post_init__] rejects.  It never returns
    an error value. *)
Theorem compile_raises_iff
    (str_mod : list Z -> Z -> option (list Z)) (program : Compiler.Program) :
  (Compiler.compile str_mod program = None
     <-> Exists (raises_on_argument str_mod) (Compiler.instructions program))
  /\ (forall e : Compiler.CompileError,
         Compiler.compile str_mod program <> Some (Err e))
  /\ (forall instr : Compiler.Instruction,
         Compiler.op instr = Compiler.OUTPUT ->
         (raises_on_argument str_mod instr
            <-> forall cp : Z,
                  Compiler.args instr !! 0%nat
                  <> Some (Compiler.PyStr [cp])))
  /\ (forall instr : Compiler.Instruction,
         Compiler.op instr = Compiler.CONST ->
         (raises_on_argument str_mod instr
            <-> Compiler.args instr = []
                \/ exists s : list Z,
                     Compiler.args instr !! 0%nat = Some (Compiler.PyStr s)
                     /\ (str_mod s 59049 = None
                         \/ exists formatted : list Z,
                              str_mod s 59049 = Some formatted
                              /\ str_mod formatted 59049 = None))).
Proof.
  unfold Compiler.compile. split; [|split; [|split]].
  - rewrite <- (compile_loop_raises str_mod _ Compiler.init).
    destruct (Compiler.compile_loop _ _ _); split; intros H; try discriminate H;
      reflexivity.
  - intros e. destruct (Compiler.compile_loop _ _ _); discriminate.
  - intros instr E. unfold raises_on_argument, output_char. rewrite E.
    destruct (Compiler.args instr !! 0%nat) as [[n|[|cp [|cp' s]]]|];
      split; intros H; try reflexivity; try discriminate H;
      try (intros cp0 Hc; discriminate Hc).
    exfalso. by apply (H cp).
  - intros instr E. unfold raises_on_argument, const_argument_raises.
    rewrite E. split.
    + intros [H|(v & Hv & s & -> & H)]; [by left | right; by exists s].
    + intros [H|(s & Hs & H)]; [by left|].
      right. exists (Compiler.PyStr s). split; [exact Hs | by exists s].
Qed.

Lemma compile_raises_iff_witness :
  Compiler.compile no_formatting
    {| Compiler.instructions :=
         [ {| Compiler.op := Compiler.OUTPUT;
              Compiler.args := [Compiler.PyStr [72; 105]] |} ] |}
  = None.
Proof.
  destruct (compile_raises_iff no_formatting
              {| Compiler.instructions :=
                   [ {| Compiler.op := Compiler.OUTPUT;
                        Compiler.args := [Compiler.PyStr [72; 105]] |} ] |})
    as [[_ H] _].
  apply H. constructor. reflexivity.
Defined.

(** X24: [compile] emits one character per OUTPUT or HALT instruction and
    none for the others; every character is in [33,126] (the final filter
    removes nothing, and [load] strips nothing), and the [k]-th character
    decodes, at address [k], to the symbol of the [k]-th emitting
    instruction. *)
Theorem compile_emits
    (str_mod : list Z -> Z -> option (list Z))
    (program : Compiler.Program) (text : list Z) :
  Compiler.compile str_mod program = Some (Ok text) ->
  length text = length (emitted (Compiler.instructions program))
  /\ Forall valid_char text
  /\ strip text = text
  /\ forall (k : nat) (sym : string),
       emitted (Compiler.instructions program) !! k = Some sym ->
       exists cp : Z,
         text !! k = Some cp
         /\ decrypt_instruction cp (Z.of_nat k) = Ok sym.
Proof.
  intros H. apply compile_text in H. subst text.
  split; [apply encode_from_length|].
  split; [apply encode_from_valid|].
  split; [apply strip_valid, encode_from_valid|].
  intros k sym Hk.
  exists (Compiler.encrypt_instruction sym (Z.of_nat k)).
  split; [by rewrite (encode_from_lookup 0 k _ sym Hk)|].
  assert (Hsym : sym = opcode_symbol Output \/ sym = opcode_symbol Halt).
  { apply list_elem_of_lookup_2 in Hk. unfold emitted in Hk.
    apply list_elem_of_omap in Hk as (instr & _ & Hi).
    unfold emitted_symbol in Hi.
    destruct (Compiler.op instr); inversion Hi; auto. }
  destruct Hsym as [-> | ->]; apply decrypt_encrypt_opcode.
Qed.

Lemma compile_emits_witness :
  length [37; 38] = length (emitted (Compiler.instructions sample_program)).
Proof.
  destruct (compile_emits no_formatting sample_program [37; 38] eq_refl) as [H _]. exact H.
Defined.

(** X25: the text [compile] produces depends on the opcodes only: the
    constant of a CONST and the character of an OUTPUT do not reach it. *)
Theorem compile_ignores_arguments
    (str_mod : list Z -> Z -> option (list Z))
    (p1 p2 : Compiler.Program) (t1 t2 : list Z) :
  Compiler.op <$> Compiler.instructions p1
    = Compiler.op <$> Compiler.instructions p2 ->
  Compiler.compile str_mod p1 = Some (Ok t1) ->
  Compiler.compile str_mod p2 = Some (Ok t2) ->
  t1 = t2.
Proof.
  intros Hop H1 H2. apply compile_text in H1, H2. subst t1 t2. f_equal.
  revert Hop. generalize (Compiler.instructions p2).
  induction (Compiler.instructions p1) as [|i1 l1 IH]; intros [|i2 l2] Hop;
    try discriminate Hop; [reflexivity|].
  injection Hop as Hi Hl. rewrite !emitted_cons. unfold emitted_symbol.
  rewrite Hi. rewrite (IH l2 Hl). reflexivity.
Qed.

Lemma compile_ignores_arguments_witness : [37; 38] = [37; 38].
Proof.
  exact (compile_ignores_arguments no_formatting sample_program sample_program'
           [37; 38] [37; 38] eq_refl eq_refl eq_refl).
Defined.

(** ** Compiled output programs on the machine *)

Lemma Tryte_add_mkTryte (x y : Z) :
  Tryte_add (mkTryte x) (mkTryte y) = mkTryte (x + y).
Proof.
  apply Tryte_eq. rewrite value_Tryte_add. unfold mkTryte. cbn [value].
  change (MAX_VALUE + 1) with 59049. by rewrite <- Zplus_mod.
Qed.

Lemma step_output_op (s : VMState) :
  state_wf s -> halted s = false ->
  decrypt_instruction (value (fetched_cell s)) (value (c s)) = Ok "<"%string ->
  step s = increment (set_output s (output s ++ [chr (value (a s) mod 256)])).
Proof.
  intros (_ & Hc & Hd & _) Hh Hdec. unfold step.
  rewrite Hh, (read_Tryte _ _ Hc). cbv zeta.
  unfold fetched_cell in Hdec. by rewrite Hdec.
Qed.

Lemma printing_state_wf (m : SafeMemory) (k : nat) :
  mem_wf m -> state_wf (printing_state m k).
Proof.
  intros Hm. unfold state_wf, printing_state. cbn [a c d memory cycles].
  split_and!; try apply mkTryte_wf; [exact Hm | lia].
Qed.

Lemma value_mkTryte_nat (k : nat) :
  Z.of_nat k < SIZE -> value (mkTryte (Z.of_nat k)) = Z.of_nat k.
Proof. intros H. apply mkTryte_small. unfold SIZE, MAX_VALUE in *. lia. Qed.

Lemma printing_fetch (m : SafeMemory) (k : nat) (sym : string) :
  Z.of_nat k < SIZE ->
  getitem m (Z.of_nat k)
  = mkTryte (Compiler.encrypt_instruction sym (Z.of_nat k)) ->
  value (fetched_cell (printing_state m k))
  = Compiler.encrypt_instruction sym (Z.of_nat k).
Proof.
  intros Hk Hcell. unfold fetched_cell, printing_state. cbn [memory c].
  rewrite value_mkTryte_nat by exact Hk. rewrite Hcell.
  apply mkTryte_small. pose proof (encrypt_instruction_range sym (Z.of_nat k)).
  unfold MAX_VALUE. lia.
Qed.

Lemma printing_step (m : SafeMemory) (k : nat) :
  mem_wf m -> Z.of_nat k < SIZE ->
  getitem m (Z.of_nat k)
  = mkTryte (Compiler.encrypt_instruction "<" (Z.of_nat k)) ->
  step (printing_state m k) = (Ok true, printing_state m (S k)).
Proof.
  intros Hm Hk Hcell.
  rewrite step_output_op;
    [| by apply printing_state_wf | reflexivity |].
  - unfold increment, set_output, printing_state.
    cbn [a c d memory output halted cycles].
    rewrite !Tryte_add_mkTryte.
    replace (Z.of_nat k + 1) with (Z.of_nat (S k)) by lia.
    change (chr (value (mkTryte 0) mod 256)) with (chr 0).
    rewrite <- replicate_cons_app. reflexivity.
  - rewrite (printing_fetch m k "<" Hk Hcell).
    change (value (c (printing_state m k))) with (value (mkTryte (Z.of_nat k))).
    rewrite value_mkTryte_nat by exact Hk.
    apply (decrypt_encrypt_opcode Output).
Qed.

Lemma printing_halt (m : SafeMemory) (n : nat) :
  mem_wf m -> Z.of_nat n < SIZE ->
  getitem m (Z.of_nat n)
  = mkTryte (Compiler.encrypt_instruction "v" (Z.of_nat n)) ->
  step (printing_state m n) = (Ok false, set_halted (printing_state m n) true).
Proof.
  intros Hm Hn Hcell.
  apply step_halt; [by apply printing_state_wf | reflexivity |].
  rewrite (printing_fetch m n "v" Hn Hcell).
  change (value (c (printing_state m n))) with (value (mkTryte (Z.of_nat n))).
  rewrite value_mkTryte_nat by exact Hn.
  apply (decrypt_encrypt_opcode Halt).
Qed.

(** [n] output instructions from address 0 and a halt after them: the loop
    of [run] prints [n] times the character of code point 0 and stops. *)
Lemma printing_run (m : SafeMemory) (n : nat) (max_cycles : Z) :
  mem_wf m -> Z.of_nat n < SIZE -> Z.of_nat n < max_cycles ->
  (forall j : nat, (j < n)%nat ->
      getitem m (Z.of_nat j)
      = mkTryte (Compiler.encrypt_instruction "<" (Z.of_nat j))) ->
  getitem m (Z.of_nat n)
  = mkTryte (Compiler.encrypt_instruction "v" (Z.of_nat n)) ->
  forall (j k gas : nat),
    (k + j = n)%nat -> (j < gas)%nat ->
    run gas max_cycles (printing_state m k)
    = Some (Ok (string_of_list_ascii (replicate n (chr 0))),
            set_halted (printing_state m n) true).
Proof.
  intros Hm Hn Hmax Hout Hhalt j.
  induction j as [|j IH]; intros k gas Hk Hgas;
    (destruct gas as [|gas]; [lia|]); cbn [run];
    change (cycles (printing_state m k)) with (Z.of_nat k);
    (destruct (Z.of_nat k <? max_cycles) eqn:E; [|lia]).
  - assert (k = n) by lia. subst k.
    rewrite printing_halt by assumption.
    rewrite run_exit_below by (cbn [cycles set_halted printing_state]; lia).
    reflexivity.
  - rewrite printing_step; [| exact Hm | lia | apply Hout; lia].
    apply IH; lia.
Qed.

Lemma code_points_replicate (n : nat) :
  Compiler.code_points (string_of_list_ascii (replicate n (chr 0)))
  = replicate n 0.
Proof.
  unfold Compiler.code_points. rewrite list_ascii_of_string_of_list_ascii.
  induction n as [|n IH]; [reflexivity|].
  cbn [replicate List.map]. by rewrite IH.
Qed.

Lemma output_chars_cons (i : Compiler.Instruction) (rest : list Compiler.Instruction) :
  output_chars (i :: rest)
  = match output_char i with
    | Some ch => ch :: output_chars rest
    | None => output_chars rest
    end.
Proof. reflexivity. Qed.

Lemma output_char_Some (i : Compiler.Instruction) (cp : Z) :
  output_char i = Some cp ->
  Compiler.op i = Compiler.OUTPUT
  /\ Compiler.args i !! 0%nat = Some (Compiler.PyStr [cp]).
Proof.
  unfold output_char. destruct (Compiler.op i); try discriminate.
  destruct (Compiler.args i !! 0%nat) as [[n|[|cp' [|cp'' s]]]|];
    try discriminate.
  intros H. injection H as ->. by split.
Qed.

Lemma output_char_other (i : Compiler.Instruction) :
  Compiler.op i <> Compiler.OUTPUT -> output_char i = None.
Proof. unfold output_char. by destruct (Compiler.op i). Qed.

(** The one-character strings of the code points [l]. *)
Lemma join_chars (l : list Z) :
  Compiler.join ((fun cp => Compiler.PyStr [cp]) <$> l) = Some l.
Proof.
  induction l as [|cp l IH]; [reflexivity|].
  cbn [fmap list_fmap Compiler.join] in *. by rewrite IH.
Qed.

Lemma simulate_loop_until_halt
      (str_mod : list Z -> Z -> option (list Z))
      (pre : list Compiler.Instruction) (h : Compiler.Instruction)
      (rest : list Compiler.Instruction) :
  Compiler.op h = Compiler.HALT ->
  Forall (fun i => Compiler.op i <> Compiler.HALT) pre ->
  Forall (fun i => ~ raises_on_argument str_mod i) pre ->
  forall acc : list Compiler.PyVal,
    Compiler.simulate_loop (pre ++ h :: rest) acc
    = Some (acc ++ ((fun cp => Compiler.PyStr [cp]) <$> output_chars pre)).
Proof.
  intros Hh Hpre Harg. induction pre as [|i pre IH]; intros acc.
  - cbn [app Compiler.simulate_loop]. rewrite Hh.
    cbn [output_chars omap list_omap fmap list_fmap]. by rewrite app_nil_r.
  - apply Forall_cons in Hpre as [Hi Hpre]. apply Forall_cons in Harg as [Ha Harg].
    cbn [app Compiler.simulate_loop]. rewrite output_chars_cons.
    unfold raises_on_argument in Ha. cbv beta in Hi, Ha.
    destruct (Compiler.op i) eqn:E;
      try (rewrite output_char_other by congruence; by apply IH);
      [|congruence].
    destruct (output_char i) as [cp|] eqn:Eo; [|by contradiction Ha].
    apply output_char_Some in Eo as [_ Ea]. rewrite Ea.
    rewrite IH by assumption. cbn [fmap list_fmap].
    by rewrite <- app_assoc.
Qed.

Lemma emitted_until_halt
      (str_mod : list Z -> Z -> option (list Z))
      (pre : list Compiler.Instruction) (h : Compiler.Instruction)
      (rest : list Compiler.Instruction) :
  Compiler.op h = Compiler.HALT ->
  Forall (fun i => Compiler.op i <> Compiler.HALT) pre ->
  Forall (fun i => ~ raises_on_argument str_mod i) pre ->
  emitted (pre ++ h :: rest)
  = replicate (length (output_chars pre)) "<"%string
      ++ "v"%string :: emitted rest.
Proof.
  intros Hh Hpre Harg. induction pre as [|i pre IH].
  - cbn [app]. rewrite emitted_cons. unfold emitted_symbol. by rewrite Hh.
  - apply Forall_cons in Hpre as [Hi Hpre]. apply Forall_cons in Harg as [Ha Harg].
    cbn [app]. rewrite emitted_cons, output_chars_cons.
    unfold emitted_symbol. unfold raises_on_argument in Ha.
    cbv beta in Hi, Ha.
    destruct (Compiler.op i) eqn:E;
      try (rewrite output_char_other by congruence; by apply IH);
      [|congruence].
    destruct (output_char i) as [cp|] eqn:Eo; [|by contradiction Ha].
    cbn [length replicate app]. f_equal. by apply IH.
Qed.

Lemma new_printing_state (m : SafeMemory) :
  set_memory new m = printing_state m 0.
Proof. reflexivity. Qed.

Lemma compile_never_raised
      (str_mod : list Z -> Z -> option (list Z))
      (program : Compiler.Program) (text : list Z) :
  Compiler.compile str_mod program = Some (Ok text) ->
  Forall (fun i => ~ raises_on_argument str_mod i)
         (Compiler.instructions program).
Proof.
  intros Hc. apply Forall_forall. intros i Hin Hraise.
  assert (Hn : Compiler.compile str_mod program = None).
  { unfold Compiler.compile.
    assert (He : Exists (raises_on_argument str_mod)
                        (Compiler.instructions program))
      by (apply Exists_exists; eauto).
    apply (compile_loop_raises str_mod _ Compiler.init) in He. by rewrite He. }
  rewrite Hn in Hc. discriminate Hc.
Qed.



(** ** compile_safe_to_malbolge *)

Lemma known_names_cases (nm : string) :
  nm ∈ known_names
  <-> nm = "const"%string \/ nm = "add"%string \/ nm = "crazy"%string
      \/ nm = "rotate"%string \/ nm = "output"%string \/ nm = "halt"%string.
Proof.
  unfold known_names. rewrite !elem_of_cons, elem_of_nil. tauto.
Qed.

Ltac name_cases o :=
  destruct (String.eqb_spec (Compiler.name o) "const");
  [|destruct (String.eqb_spec (Compiler.name o) "add");
    [|destruct (String.eqb_spec (Compiler.name o) "crazy");
      [|destruct (String.eqb_spec (Compiler.name o) "rotate");
        [|destruct (String.eqb_spec (Compiler.name o) "output");
          [|destruct (String.eqb_spec (Compiler.name o) "halt")]]]]].

Lemma build_instructions_error (operations : list Compiler.Operation) :
  forall (acc : list Compiler.Instruction) (e : Compiler.CompileError),
    Compiler.build_instructions operations acc = Some (Err e) ->
    exists o : Compiler.Operation,
      o ∈ operations /\ e = Compiler.UnknownOperation (Compiler.name o)
      /\ Compiler.name o ∉ known_names.
Proof.
  induction operations as [|o rest IH]; intros acc e H; [discriminate H|].
  cbn [Compiler.build_instructions] in H.
  assert (Hrec : forall acc',
             Compiler.build_instructions rest acc' = Some (Err e) ->
             exists o' : Compiler.Operation,
               o' ∈ o :: rest /\ e = Compiler.UnknownOperation (Compiler.name o')
               /\ Compiler.name o' ∉ known_names).
  { intros acc' H'. destruct (IH acc' e H') as (o' & Hin & He & Hn).
    exists o'. split; [by right | by split]. }
  name_cases o.
  - destruct (Compiler.items o !! 0%nat); [by eapply Hrec | discriminate H].
  - by eapply Hrec.
  - by eapply Hrec.
  - by eapply Hrec.
  - destruct (Compiler.items o !! 0%nat); [by eapply Hrec | discriminate H].
  - by eapply Hrec.
  - injection H as <-. exists o. split; [by left|]. split; [reflexivity|].
    rewrite known_names_cases. intros Hk. decompose [or] Hk; contradiction.
Qed.

Lemma built_argument_ok
      (str_mod : list Z -> Z -> option (list Z))
      (opc : Compiler.OpCode) (v : Compiler.PyVal) :
  (opc = Compiler.CONST -> ~ const_argument_raises str_mod v) ->
  (opc = Compiler.OUTPUT -> exists cp : Z, v = Compiler.PyStr [cp]) ->
  ~ raises_on_argument str_mod {| Compiler.op := opc; Compiler.args := [v] |}.
Proof.
  intros Hc Ho. unfold raises_on_argument, output_char.
  cbn [Compiler.op Compiler.args].
  destruct opc; try (intros H; exact H).
  - intros [H|(v' & Hv & Hr)]; [discriminate H|].
    injection Hv as <-. by apply Hc.
  - destruct Ho as [cp ->]; [reflexivity|]. intros H. discriminate H.
Qed.

Lemma built_argument_inv
      (str_mod : list Z -> Z -> option (list Z))
      (opc : Compiler.OpCode) (v : Compiler.PyVal) :
  ~ raises_on_argument str_mod {| Compiler.op := opc; Compiler.args := [v] |} ->
  (opc = Compiler.CONST -> ~ const_argument_raises str_mod v)
  /\ (opc = Compiler.OUTPUT -> exists cp : Z, v = Compiler.PyStr [cp]).
Proof.
  unfold raises_on_argument, output_char. cbn [Compiler.op Compiler.args].
  intros H. split; intros ->.
  - intros Hr. apply H. right. by exists v.
  - destruct v as [n|[|cp [|cp' s]]]; try (exfalso; by apply H).
    by exists cp.
Qed.

Lemma bare_instruction_ok
      (str_mod : list Z -> Z -> option (list Z)) (opc : Compiler.OpCode) :
  opc <> Compiler.CONST -> opc <> Compiler.OUTPUT ->
  ~ raises_on_argument str_mod {| Compiler.op := opc; Compiler.args := [] |}.
Proof.
  intros H1 H2. unfold raises_on_argument. cbn [Compiler.op].
  destruct opc; try (intros H; exact H); contradiction.
Qed.

Lemma build_instructions_ok
      (str_mod : list Z -> Z -> option (list Z))
      (operations : list Compiler.Operation) :
  Forall (compilable_operation str_mod) operations ->
  forall acc : list Compiler.Instruction,
    Forall (fun i => ~ raises_on_argument str_mod i) acc ->
    exists instrs : list Compiler.Instruction,
      Compiler.build_instructions operations acc = Some (Ok instrs)
      /\ Forall (fun i => ~ raises_on_argument str_mod i) instrs
      /\ length instrs = (length acc + length operations)%nat.
Proof.
  induction 1 as [|o rest ([Hk Hitems] & Hconst & Hout) _ IH]; intros acc Hacc.
  { exists acc. cbn [Compiler.build_instructions length].
    split; [reflexivity|]. split; [exact Hacc | lia]. }
  cbn [Compiler.build_instructions].
  assert (Hstep : forall i : Compiler.Instruction,
             ~ raises_on_argument str_mod i ->
             exists instrs : list Compiler.Instruction,
               Compiler.build_instructions rest (acc ++ [i]) = Some (Ok instrs)
               /\ Forall (fun i => ~ raises_on_argument str_mod i) instrs
               /\ length instrs = (length acc + length (o :: rest))%nat).
  { intros i Hi.
    destruct (IH (acc ++ [i])) as (instrs & Hb & Hf & Hl).
    - apply Forall_app. split; [exact Hacc | by constructor].
    - exists instrs. split; [exact Hb|]. split; [exact Hf|].
      rewrite Hl, length_app. cbn [length]. lia. }
  name_cases o.
  - destruct (Compiler.items o !! 0%nat) as [v|] eqn:Ev.
    + apply Hstep, built_argument_ok; [|discriminate].
      intros _. by apply Hconst.
    + apply lookup_0_None in Ev. exfalso. apply Hitems; [by left | exact Ev].
  - apply Hstep, bare_instruction_ok; discriminate.
  - apply Hstep, bare_instruction_ok; discriminate.
  - apply Hstep, bare_instruction_ok; discriminate.
  - destruct (Hout ltac:(assumption)) as [cp Ecp]. rewrite Ecp.
    apply Hstep, built_argument_ok; [discriminate|]. intros _. by exists cp.
  - apply Hstep, bare_instruction_ok; discriminate.
  - exfalso. apply known_names_cases in Hk. decompose [or] Hk; contradiction.
Qed.

(** The operations behind the instructions the loop has built. *)
Lemma build_instructions_inv
      (str_mod : list Z -> Z -> option (list Z))
      (operations : list Compiler.Operation) :
  forall acc instrs : list Compiler.Instruction,
    Compiler.build_instructions operations acc = Some (Ok instrs) ->
    exists built : list Compiler.Instruction,
      instrs = acc ++ built
      /\ (Forall (fun i => ~ raises_on_argument str_mod i) built ->
          Forall (compilable_operation str_mod) operations).
Proof.
  induction operations as [|o rest IH]; intros acc instrs H.
  { injection H as <-. exists []. split; [by rewrite app_nil_r | constructor]. }
  cbn [Compiler.build_instructions] in H.
  assert (Hrec : forall i : Compiler.Instruction,
             Compiler.build_instructions rest (acc ++ [i]) = Some (Ok instrs) ->
             (~ raises_on_argument str_mod i -> compilable_operation str_mod o) ->
             exists built : list Compiler.Instruction,
               instrs = acc ++ built
               /\ (Forall (fun i => ~ raises_on_argument str_mod i) built ->
                   Forall (compilable_operation str_mod) (o :: rest))).
  { intros i Hb Hi. destruct (IH _ _ Hb) as (built & -> & Hf).
    exists (i :: built). split; [by rewrite <- app_assoc|].
    intros Hall. apply Forall_cons in Hall as [H1 H2].
    constructor; [by apply Hi | by apply Hf]. }
  assert (Hbare : Compiler.name o ∈ known_names ->
                  Compiler.name o <> "const"%string ->
                  Compiler.name o <> "output"%string ->
                  compilable_operation str_mod o).
  { intros Hk H1 H2. split; [split; [exact Hk|]|split].
    - intros [E|E]; contradiction.
    - intros E. contradiction.
    - intros E. contradiction. }
  name_cases o.
  - destruct (Compiler.items o !! 0%nat) as [v|] eqn:Ev; [|discriminate H].
    apply (Hrec _ H). intros Hi.
    apply built_argument_inv in Hi as [Hi _].
    split; [split|split].
    + apply known_names_cases. by left.
    + intros _ E. rewrite E in Ev. discriminate Ev.
    + intros _ v' Hv'. rewrite Ev in Hv'. injection Hv' as <-. by apply Hi.
    + intros E. congruence.
  - apply (Hrec _ H). intros _. apply Hbare; [|congruence|congruence].
    apply known_names_cases. tauto.
  - apply (Hrec _ H). intros _. apply Hbare; [|congruence|congruence].
    apply known_names_cases. tauto.
  - apply (Hrec _ H). intros _. apply Hbare; [|congruence|congruence].
    apply known_names_cases. tauto.
  - destruct (Compiler.items o !! 0%nat) as [v|] eqn:Ev; [|discriminate H].
    apply (Hrec _ H). intros Hi.
    apply built_argument_inv in Hi as [_ Hi].
    split; [split|split].
    + apply known_names_cases. tauto.
    + intros _ E. rewrite E in Ev. discriminate Ev.
    + intros E. congruence.
    + intros _. destruct Hi as [cp ->]; [reflexivity|]. by exists cp.
  - apply (Hrec _ H). intros _. apply Hbare; [|congruence|congruence].
    apply known_names_cases. tauto.
  - discriminate H.
Qed.

Lemma build_instructions_first_unknown
      (pre : list Compiler.Operation) (o : Compiler.Operation)
      (rest : list Compiler.Operation) :
  Forall well_formed_operation pre ->
  Compiler.name o ∉ known_names ->
  forall acc : list Compiler.Instruction,
    Compiler.build_instructions (pre ++ o :: rest) acc
    = Some (Err (Compiler.UnknownOperation (Compiler.name o))).
Proof.
  intros Hpre Ho. induction Hpre as [|p pre [Hk Hitems] _ IH]; intros acc.
  - cbn [app Compiler.build_instructions].
    rewrite known_names_cases in Ho.
    name_cases o; try reflexivity; exfalso; apply Ho; tauto.
  - cbn [app Compiler.build_instructions].
    name_cases p; try apply IH.
    + destruct (Compiler.items p !! 0%nat) as [v|] eqn:Ev; [apply IH|].
      apply lookup_0_None in Ev. exfalso. apply Hitems; [by left | exact Ev].
    + destruct (Compiler.items p !! 0%nat) as [v|] eqn:Ev; [apply IH|].
      apply lookup_0_None in Ev. exfalso. apply Hitems; [by right | exact Ev].
    + exfalso. apply known_names_cases in Hk. decompose [or] Hk; contradiction.
Qed.

Lemma emitted_length (instrs : list Compiler.Instruction) :
  (length (emitted instrs) <= length instrs)%nat.
Proof.
  induction instrs as [|i rest IH]; [reflexivity|].
  rewrite emitted_cons. destruct (emitted_symbol i); cbn [length]; lia.
Qed.

(** X27: on operation tuples whose items are ints and strings.  The only
    error [compile_safe_to_malbolge] returns is the unknown operation, for
    the name of an operation that is not one of the six; it is returned at
    the first such operation, whatever follows.  When every operation
    compiles (a known name; after "const" an item on which [compile_const]
    does not raise; after "output" a string of length 1) the result is a
    text of valid characters, at most one per operation.  When every name
    is known, the call raises exactly when some operation does not compile:
    [('output', 'Hi')] raises, from [ord]. *)
Theorem compile_safe_to_malbolge_results
    (str_mod : list Z -> Z -> option (list Z)) :
  (forall (operations : list Compiler.Operation) (e : Compiler.CompileError),
      Compiler.compile_safe_to_malbolge str_mod operations = Some (Err e) ->
      exists o : Compiler.Operation,
        o ∈ operations /\ e = Compiler.UnknownOperation (Compiler.name o)
        /\ Compiler.name o ∉ known_names)
  /\ (forall (pre : list Compiler.Operation) (o : Compiler.Operation)
             (rest : list Compiler.Operation),
         Forall well_formed_operation pre ->
         Compiler.name o ∉ known_names ->
         Compiler.compile_safe_to_malbolge str_mod (pre ++ o :: rest)
         = Some (Err (Compiler.UnknownOperation (Compiler.name o))))
  /\ (forall operations : list Compiler.Operation,
         Forall (compilable_operation str_mod) operations ->
         exists text : list Z,
           Compiler.compile_safe_to_malbolge str_mod operations = Some (Ok text)
           /\ Forall valid_char text
           /\ (length text <= length operations)%nat)
  /\ (forall operations : list Compiler.Operation,
         Forall (fun o => Compiler.name o ∈ known_names) operations ->
         (Compiler.compile_safe_to_malbolge str_mod operations = None
            <-> ~ Forall (compilable_operation str_mod) operations)).
Proof.
  assert (Hthird : forall operations : list Compiler.Operation,
             Forall (compilable_operation str_mod) operations ->
             exists text : list Z,
               Compiler.compile_safe_to_malbolge str_mod operations
               = Some (Ok text)
               /\ Forall valid_char text
               /\ (length text <= length operations)%nat).
  { intros operations Hwf. unfold Compiler.compile_safe_to_malbolge.
    destruct (build_instructions_ok str_mod operations Hwf [])
      as (instrs & Hb & Hf & Hl); [constructor|].
    rewrite Hb.
    destruct (Compiler.compile str_mod {| Compiler.instructions := instrs |})
      as [[text|e]|] eqn:Hc.
    + exists text. split; [reflexivity|].
      pose proof (compile_text _ _ _ Hc) as Ht.
      cbn [Compiler.instructions] in Ht.
      split; [rewrite Ht; apply encode_from_valid|].
      rewrite Ht, encode_from_length.
      pose proof (emitted_length instrs). cbn [length] in Hl. lia.
    + exfalso. unfold Compiler.compile in Hc.
      destruct (Compiler.compile_loop _ _ _); discriminate Hc.
    + exfalso. unfold Compiler.compile in Hc.
      destruct (Compiler.compile_loop _ _ _) eqn:Hloop; [discriminate Hc|].
      apply (compile_loop_raises str_mod _ Compiler.init) in Hloop.
      cbn [Compiler.instructions] in Hloop.
      apply Exists_exists in Hloop as (i & Hin & Hraise).
      rewrite Forall_forall in Hf. by apply (Hf i Hin). }
  assert (Hfirst : forall (operations : list Compiler.Operation)
                          (e : Compiler.CompileError),
             Compiler.compile_safe_to_malbolge str_mod operations
             = Some (Err e) ->
             exists o : Compiler.Operation,
               o ∈ operations /\ e = Compiler.UnknownOperation (Compiler.name o)
               /\ Compiler.name o ∉ known_names).
  { intros operations e H. unfold Compiler.compile_safe_to_malbolge in H.
    destruct (Compiler.build_instructions operations [])
      as [[instrs|e']|] eqn:Hb; [| |discriminate H].
    + exfalso. unfold Compiler.compile in H.
      destruct (Compiler.compile_loop _ _ _); discriminate H.
    + injection H as <-. by apply (build_instructions_error operations []). }
  split; [exact Hfirst|]. split; [|split; [exact Hthird|]].
  - intros pre o rest Hpre Ho. unfold Compiler.compile_safe_to_malbolge.
    by rewrite build_instructions_first_unknown.
  - intros operations Hknown. split.
    + intros Hnone Hall. destruct (Hthird operations Hall) as (text & Ht & _).
      rewrite Ht in Hnone. discriminate Hnone.
    + intros Hnot.
      destruct (Compiler.compile_safe_to_malbolge str_mod operations)
        as [[text|e]|] eqn:Hr; [| |reflexivity]; exfalso.
      * apply Hnot. unfold Compiler.compile_safe_to_malbolge in Hr.
        destruct (Compiler.build_instructions operations [])
          as [[instrs|e']|] eqn:Hb; try discriminate Hr.
        destruct (build_instructions_inv str_mod operations [] instrs Hb)
          as (built & Hi & Hf).
        cbn [app] in Hi. subst built. apply Hf.
        exact (compile_never_raised str_mod _ text Hr).
      * destruct (Hfirst operations e Hr) as (o & Hin & _ & Hn).
        rewrite Forall_forall in Hknown. by apply Hn, Hknown.
Qed.

Lemma compile_safe_to_malbolge_results_witness :
  Compiler.compile_safe_to_malbolge no_formatting
    ([] ++ {| Compiler.name := "jump"; Compiler.items := [] |} :: [])
  = Some (Err (Compiler.UnknownOperation "jump"))
  /\ Compiler.compile_safe_to_malbolge no_formatting
       [ {| Compiler.name := "output";
            Compiler.items := [Compiler.PyStr [72; 105]] |} ]
     = None.
Proof.
  destruct (compile_safe_to_malbolge_results no_formatting)
    as (_ & H & _ & Hraise).
  split.
  - apply (H [] {| Compiler.name := "jump"; Compiler.items := [] |} []).
    + constructor.
    + cbn [Compiler.name]. rewrite known_names_cases.
      intros Hk. decompose [or] Hk; discriminate.
  - apply Hraise.
    + constructor; [|constructor]. cbn [Compiler.name].
      rewrite known_names_cases. tauto.
    + intros Hall. apply Forall_cons in Hall as [(_ & _ & Hout) _].
      destruct Hout as [cp Hcp]; [reflexivity|]. discriminate Hcp.
Defined.
(** ** The two jump opcodes *)

Lemma step_jump_data (s : VMState) :
  state_wf s -> halted s = false ->
  decrypt_instruction (value (fetched_cell s)) (value (c s)) = Ok "j"%string ->
  step s = increment (set_d s (getitem (memory s) (value (d s)))).
Proof.
  intros (_ & Hc & Hd & _) Hh Hdec. unfold step.
  rewrite Hh, (read_Tryte _ _ Hc). cbv zeta.
  unfold fetched_cell in Hdec. rewrite Hdec.
  by rewrite (read_Tryte _ _ Hd).
Qed.

(** X28: the two jump opcodes on a running machine: [j] loads the data
    pointer from the cell it points to and then takes the usual
    increments, so the pointer ends one past the loaded value; [i] loads
    the code pointer from that cell and changes nothing else, the cycle
    counter included. *)
Theorem step_jumps (s : VMState) :
  state_wf s -> halted s = false ->
  let op := decrypt_instruction (value (fetched_cell s)) (value (c s)) in
  let target := getitem (memory s) (value (d s)) in
  (op = Ok "j"%string ->
   step s
   = (Ok true,
      {| a := a s;
         c := Tryte_add (c s) (mkTryte 1);
         d := Tryte_add target (mkTryte 1);
         memory := memory s; output := output s; halted := halted s;
         cycles := cycles s + 1 |}))
  /\ (op = Ok "i"%string ->
      step s
      = (Ok true,
         {| a := a s; c := target; d := d s;
            memory := memory s; output := output s; halted := halted s;
            cycles := cycles s |})).
Proof.
  intros Hwf Hh op target. split; intros Hop.
  - by rewrite step_jump_data.
  - by rewrite step_jump_code.
Qed.

Lemma step_jumps_witness :
  fst (step (snd (load jump_loop_program new))) = Ok true.
Proof.
  destruct jump_loop_program_valid as (Hfit & Hv & H0 & _).
  pose proof (load_wf jump_loop_program new new_wf) as Hwf.
  destruct (load_registers jump_loop_program new) as (_ & Hc & _ & _ & Hh & _).
  assert (Hc0 : c (snd (load jump_loop_program new)) = mkTryte 0) by exact Hc.
  pose proof (load_text_cell _ new _ _ new_wf Hfit Hv H0) as Hcell.
  change (Z.of_nat 0) with 0 in Hcell.
  destruct (step_jumps (snd (load jump_loop_program new)) Hwf Hh) as [_ H].
  rewrite H; [reflexivity|].
  unfold fetched_cell. rewrite Hc0, value_mkTryte_0, Hcell. reflexivity.
Defined.

(** ** run: the fuel limit is met exactly *)

Lemma run_limit (gas : nat) :
  forall (max_cycles m : Z) (s s' : VMState),
    run gas max_cycles s = Some (Err (ExecutionLimitExceeded m), s') ->
    cycles s' = Z.max (cycles s) max_cycles
    /\ (max_cycles <= cycles s -> s' = s).
Proof.
  induction gas as [|gas IH]; intros max_cycles m s s' Hrun; [discriminate Hrun|].
  cbn [run] in Hrun.
  destruct (cycles s <? max_cycles) eqn:Hlt.
  - pose proof (step_counts s) as [Hc _].
    destruct (step s) as [[[|]|e] s1] eqn:Hstep; cbn [snd] in Hc.
    + destruct (IH _ _ _ _ Hrun) as [H1 _]. split; lia.
    + unfold run_exit in Hrun.
      destruct (cycles s1 >=? max_cycles) eqn:Hge;
        [|discriminate Hrun].
      injection Hrun as _ <-. split; lia.
    + discriminate Hrun.
  - unfold run_exit in Hrun.
    destruct (cycles s >=? max_cycles) eqn:Hge; [|lia].
    injection Hrun as _ <-. split; [lia | reflexivity].
Qed.

(** X29: when [run] reports the limit exceeded, the cycle counter is
    exactly the limit, or the counter it started from when that was
    already at or above the limit, in which case the state is untouched. *)
Theorem run_limit_exact
    (gas : nat) (max_cycles m : Z) (s s' : VMState) :
  run gas max_cycles s = Some (Err (ExecutionLimitExceeded m), s') ->
  cycles s' = Z.max (cycles s) max_cycles
  /\ (max_cycles <= cycles s -> s' = s).
Proof. apply run_limit. Qed.

Lemma run_new_no_fuel :
  run 1 (-5) new = Some (Err (ExecutionLimitExceeded (-5)), new).
Proof. reflexivity. Qed.

Lemma run_limit_exact_witness :
  cycles new = Z.max (cycles new) (-5) /\ (-5 <= cycles new -> new = new).
Proof. exact (run_limit_exact 1 (-5) (-5) new new run_new_no_fuel). Defined.
